(** * folkroot: the pairwise alignment and distance engine

    A shallow embedding of the C++ sources of the alignment engine
    (global_approximate_alignment, shared_segments_alignment, common and
    compute_features_alignment) together with the properties the design
    document states about them.

    Conventions of the embedding.
    - A C++ [int] is a [Z] in the range [-2^31, 2^31); the result of [+] and
      [*] on ints is reduced by [wrap] (two's complement, what the targets
      of this program compute; the standard leaves signed overflow undefined).
    - A [size_t] index or a loop counter is a [nat]; the counters of
      [global_alignment] are ints in the source, so the model covers
      sequences of fewer than 2^31 elements.
    - [vector<T>] is [list T], read with stdpp's lookup and written with
      list insert at indices that the loops keep in range.
    - [optional<int>] is [option Z]; [std::map] is [gmap].
    - [double] is the kernel's binary64 [float]: every operation is rounded
      to nearest on its own (no fused multiply-add).
    - SQLite is seen through the rows its statements return and take; what
      the programs print on [cout] is left out, and the lines on [cerr] are
      kept where a property speaks of them. *)

From Stdlib Require Import ZArith Lia List Bool Ascii String Floats.
From stdpp Require Import base tactics option list sorting gmap strings.

#[local] Open Scope Z_scope.

(** ** Machine integers *)

Module Int.

Definition min_int : Z := - 2 ^ 31.
Definition max_int : Z := 2 ^ 31 - 1.

Definition in_range (z : Z) : Prop := min_int <= z <= max_int.

(** Two's-complement reduction of a mathematical result to 32 bits. *)
Definition wrap (z : Z) : Z := (z + 2 ^ 31) mod 2 ^ 32 - 2 ^ 31.

Definition add (a b : Z) : Z := wrap (a + b).
Definition mul (a b : Z) : Z := wrap (a * b).

End Int.

(** ** Exceptions and undefined behaviour

    A call either returns, leaves by one of the standard exceptions the
    sources can meet, or has no defined behaviour (a write outside a
    vector). *)

Inductive exception : Type :=
  | invalid_argument
  | out_of_range
  | length_error.

Inductive outcome (A : Type) : Type :=
  | Ret (a : A)
  | Throw (e : exception)
  | Undefined.

Arguments Ret {A} a.
Arguments Throw {A} e.
Arguments Undefined {A}.

#[global] Instance outcome_ret : MRet outcome := @Ret.

#[global] Instance outcome_bind : MBind outcome := fun A B k c =>
  match c with
  | Ret a => k a
  | Throw e => Throw e
  | Undefined => Undefined
  end.

(** A loop whose body may throw: the iterations run in order and the first
    exception ends the loop. *)
Fixpoint foldlM {A B : Type} (f : A -> B -> outcome A) (a : A) (l : list B)
    : outcome A :=
  match l with
  | [] => Ret a
  | x :: l => a' ← f a x; foldlM f a' l
  end.

(** ** global_approximate_alignment: [min_of_three] and [global_alignment] *)

Module GlobalAlignment.

Definition min_of_three (a b c : Z) : Z := Z.min (Z.min a b) c.

Definition has_value (o : option Z) : bool :=
  match o with Some _ => true | None => false end.

(** [value()], which the source calls under [has_value()] only. *)
Definition value (o : option Z) : Z := default 0 o.

Section Alignment.

Variables score_1_feature score_2_feature : list (option Z).
Variables match_score mismatch_penalty gap_penalty : Z.

(** The scoring branch of the inner loop body (the three commented
    cases of the source). *)
Definition cell_score (i j : nat) : Z :=
  let e1 := score_1_feature !!! (i - 1)%nat in
  let e2 := score_2_feature !!! (j - 1)%nat in
  let score := mismatch_penalty in
  if negb (has_value e1) && negb (has_value e2) then match_score
  else if has_value e1 && has_value e2 then
    (if value e1 =? value e2 then match_score else score)
  else mismatch_penalty.

(** [for (int i = 0; i <= f2_size; ++i) prev_column[i] = i * gap_penalty;] *)
Definition init_first_row (f2_size : nat) : list Z :=
  foldl (fun col i => <[i := Int.mul (Z.of_nat i) gap_penalty]> col)
        (replicate (S f2_size) 0) (seq 0 (S f2_size)).

(** One iteration of the inner loop: writes [current_column[j]]. *)
Definition inner_body (i : nat) (prev_column current_column : list Z)
    (j : nat) : list Z :=
  <[j := min_of_three
           (Int.add (prev_column !!! (j - 1)%nat) (cell_score i j))
           (Int.add (prev_column !!! j) gap_penalty)
           (Int.add (current_column !!! (j - 1)%nat) gap_penalty)]>
    current_column.

(** One iteration of the outer loop on the pair
    [(prev_column, current_column)]. *)
Definition outer_body (f2_size : nat) (cols : list Z * list Z) (i : nat)
    : list Z * list Z :=
  let '(prev_column, current_column) := cols in
  let current_column := <[0%nat := Int.mul (Z.of_nat i) gap_penalty]> current_column in
  let current_column :=
    foldl (inner_body i prev_column) current_column (seq 1 f2_size) in
  (current_column, current_column).

Definition global_alignment : Z :=
  let f1_size := length score_1_feature in
  let f2_size := length score_2_feature in
  let prev_column := init_first_row f2_size in
  let current_column := prev_column in
  let '(_, current_column) :=
    foldl (outer_body f2_size) (prev_column, current_column) (seq 1 f1_size) in
  current_column !!! f2_size.

End Alignment.

(** *** The full-matrix reference definition

    Follows the design document: an (m+1) x (n+1) grid, row and column 0
    hold index times gap_penalty, every other cell is the minimum of the
    three neighbours' costs, and the answer is the bottom-right cell. *)

Definition pairScore (a b : option Z) (match_score mismatch_penalty : Z) : Z :=
  match a, b with
  | None, None => match_score
  | Some u, Some v => if u =? v then match_score else mismatch_penalty
  | _, _ => mismatch_penalty
  end.

Section Reference.

Variables a b : list (option Z).
Variables match_score mismatch_penalty gap_penalty : Z.

Fixpoint cost (i : nat) : nat -> Z :=
  match i with
  | O => fun j => Int.mul (Z.of_nat j) gap_penalty
  | S i' =>
      fix cost_row (j : nat) : Z :=
        match j with
        | O => Int.mul (Z.of_nat (S i')) gap_penalty
        | S j' =>
            min_of_three
              (Int.add (cost i' j')
                 (pairScore (a !!! i') (b !!! j') match_score mismatch_penalty))
              (Int.add (cost i' (S j')) gap_penalty)
              (Int.add (cost_row j') gap_penalty)
        end
  end.

Definition matrix_alignment : Z := cost (length a) (length b).

End Reference.

End GlobalAlignment.

(** ** utils/common: the records, the store and the batch writer *)

Module Common.

Record FeatureData : Type := {
  id : Z;
  diatonic_feature : list (option Z);
  chromatic_feature : list (option Z);
  rhythmic_feature : list (option Z);
  diatonic_rhythmic_feature : list (option Z);
  chromatic_rhythmic_feature : list (option Z)
}.

Record AlignmentScores : Type := {
  id1 : Z;
  id2 : Z;
  level : string;
  diatonic_score : Z;
  chromatic_score : Z;
  rhythmic_score : Z;
  diatonic_rhythmic_score : Z;
  chromatic_rhythmic_score : Z
}.

(** The SQL statements the sources prepare. *)
Inductive statement : Type :=
  | InsertSegmentAlignment
  | InsertScoreAlignment
  | SelectScoreIds
  | SelectSegmentFeatures
  | SelectScoreFeatures
  | SelectSegmentGroups
  | SelectMaxGroupId.

(** A row of SegmentAlignment or ScoreAlignment: the values bound to the
    insert statement, in binding order; [row_level] is bound for score
    alignments only. *)
Record alignment_row : Type := {
  row_id_1 : Z;
  row_id_2 : Z;
  row_level : option string;
  row_diatonic_score : Z;
  row_chromatic_score : Z;
  row_rhythmic_score : Z;
  row_diatonic_rhythmic_score : Z;
  row_chromatic_rhythmic_score : Z
}.

(** A row of the feature queries: the id and the five text columns, a
    NULL column being [None]. *)
Record feature_row : Type := {
  col_id : Z;
  col_diatonic : option string;
  col_chromatic : option string;
  col_rhythmic : option string;
  col_diatonic_rhythmic : option string;
  col_chromatic_rhythmic : option string
}.

(** The SQLite connection as the sources see it: whether a statement
    prepares, the rows each query steps through, whether the store takes
    an inserted row, and the rows inserted so far.  COMMIT and BEGIN
    TRANSACTION leave these rows as they are. *)
Record sqlite3 : Type := {
  prepares : statement -> bool;
  score_id_rows : list Z;
  segment_feature_rows : list feature_row;
  score_feature_rows : list feature_row;
  segment_group_rows : Z -> string -> list Z;
  max_group_id_row : string -> option Z;
  accepts : list alignment_row -> alignment_row -> bool;
  SegmentAlignment : list alignment_row;
  ScoreAlignment : list alignment_row
}.

Definition insert_row (db : sqlite3) (is_segment : bool) (r : alignment_row)
    : sqlite3 :=
  if is_segment then
    {| prepares := prepares db; score_id_rows := score_id_rows db;
       segment_feature_rows := segment_feature_rows db;
       score_feature_rows := score_feature_rows db;
       segment_group_rows := segment_group_rows db;
       max_group_id_row := max_group_id_row db; accepts := accepts db;
       SegmentAlignment := SegmentAlignment db ++ [r];
       ScoreAlignment := ScoreAlignment db |}
  else
    {| prepares := prepares db; score_id_rows := score_id_rows db;
       segment_feature_rows := segment_feature_rows db;
       score_feature_rows := score_feature_rows db;
       segment_group_rows := segment_group_rows db;
       max_group_id_row := max_group_id_row db; accepts := accepts db;
       SegmentAlignment := SegmentAlignment db;
       ScoreAlignment := ScoreAlignment db ++ [r] |}.

Definition table (db : sqlite3) (is_segment : bool) : list alignment_row :=
  if is_segment then SegmentAlignment db else ScoreAlignment db.

(** The values one iteration of the writer binds to the statement. *)
Definition bound_row (is_segment : bool) (a : AlignmentScores) : alignment_row :=
  {| row_id_1 := Z.min (id1 a) (id2 a);
     row_id_2 := Z.max (id1 a) (id2 a);
     row_level := if negb is_segment then Some (level a) else None;
     row_diatonic_score := diatonic_score a;
     row_chromatic_score := chromatic_score a;
     row_rhythmic_score := rhythmic_score a;
     row_diatonic_rhythmic_score := diatonic_rhythmic_score a;
     row_chromatic_rhythmic_score := chromatic_rhythmic_score a |}.

(** [sqlite3_step]: the row is stored when the store takes it; a refused
    row is reported and skipped. *)
Definition step_insert (is_segment : bool) (db : sqlite3) (a : AlignmentScores)
    : sqlite3 :=
  let r := bound_row is_segment a in
  if accepts db (table db is_segment) r then insert_row db is_segment r else db.

Definition save_alignments_batch (db : sqlite3)
    (alignments : list AlignmentScores) (is_segment : bool) : sqlite3 :=
  let sql := if is_segment then InsertSegmentAlignment else InsertScoreAlignment in
  if negb (prepares db sql) then db
  else foldl (step_insert is_segment) db alignments.

Definition get_all_score_ids (db : sqlite3) : list Z :=
  if negb (prepares db SelectScoreIds) then [] else score_id_rows db.

(** *** The pairwise sweep

    [process_alignments] and [process_shared_segments_alignments] run the
    same two nested loops over the loaded entities, with the same batch
    buffer; they differ in the computation of one pair's record. *)

Definition BATCH_SIZE : nat := Z.to_nat 10000.

Section PairLoop.

Context {E : Type} `{!Inhabited E}.
Variable compare : E -> E -> outcome AlignmentScores.
Variable is_segment : bool.
Variable data : list E.

(** The body of the inner loop on the state [(batch, db)]. *)
Definition pair_body (i : nat) (st : list AlignmentScores * sqlite3) (j : nat)
    : outcome (list AlignmentScores * sqlite3) :=
  let '(batch, db) := st in
  scores ← compare (data !!! i) (data !!! j);
  let batch := batch ++ [scores] in
  if (BATCH_SIZE <=? length batch)%nat then
    Ret ([], save_alignments_batch db batch is_segment)
  else Ret (batch, db).

(** [for (j = i + 1; j < data.size(); j++)] *)
Definition row_body (st : list AlignmentScores * sqlite3) (i : nat)
    : outcome (list AlignmentScores * sqlite3) :=
  foldlM (pair_body i) st (seq (S i) (length data - S i)).

Definition pair_loop (db : sqlite3) : outcome sqlite3 :=
  st ← foldlM row_body ([], db) (seq 0 (length data));
  let '(batch, db) := st in
  match batch with
  | [] => Ret db
  | _ :: _ => Ret (save_alignments_batch db batch is_segment)
  end.

End PairLoop.

End Common.

(** ** Doubles *)

Module Double.

#[global] Instance float_inhabited : Inhabited float := populate 0%float.

(** [static_cast<double>(count)] for an int. *)
Definition of_int (z : Z) : float :=
  if z <? 0 then PrimFloat.opp (PrimFloat.of_uint63 (Uint63.of_Z (- z)))
  else PrimFloat.of_uint63 (Uint63.of_Z z).

(** [round]: to the nearest integral value, halfway cases away from
    zero.  A finite double is (-1)^s * m * 2^e; with e >= 0 it is
    integral already. *)
Definition round (x : float) : float :=
  match Prim2SF x with
  | SpecFloat.S754_finite s m e =>
      if 0 <=? e then x
      else
        let q := (Z.pos m + 2 ^ (- e - 1)) / 2 ^ (- e) in
        let r := PrimFloat.of_uint63 (Uint63.of_Z q) in
        if s then PrimFloat.opp r else r
  | _ => x
  end.

(** [static_cast<int>] of a double: truncation toward zero; outside the
    range of int (and for NaN) the conversion instruction of the target
    yields the smallest int (the standard leaves the case undefined). *)
Definition to_int (x : float) : Z :=
  match Prim2SF x with
  | SpecFloat.S754_zero _ => 0
  | SpecFloat.S754_finite s m e =>
      let t := if 0 <=? e then Z.pos m * 2 ^ e else Z.pos m / 2 ^ (- e) in
      let v := if s then - t else t in
      if (Int.min_int <=? v) && (v <=? Int.max_int) then v else Int.min_int
  | _ => Int.min_int
  end.

End Double.

(** ** utils/shared_segments_alignment: occurrence profiles and their
    Euclidean distance *)

Module SharedSegments.

Import Common.

(** [m[k]] on a [std::map<K, int>]: the stored value, 0 for a new key. *)
Definition map_at `{Countable K} (m : gmap K Z) (k : K) : Z := default 0 (m !! k).

Definition get_group_occurrences (db : sqlite3) (score_id : Z)
    (feature_type : string) : gmap Z Z :=
  let group_counts : gmap Z Z := ∅ in
  if negb (prepares db SelectSegmentGroups) then group_counts
  else
    foldl (fun (group_counts : gmap Z Z) group_id =>
             <[group_id := Int.add (map_at group_counts group_id) 1]> group_counts)
          group_counts (segment_group_rows db score_id feature_type).

Definition get_max_group_id (db : sqlite3) (feature_type : string) : Z :=
  let max_group_id := 0 in
  if negb (prepares db SelectMaxGroupId) then 0
  else
    match max_group_id_row db feature_type with
    | Some g => g
    | None => max_group_id
    end.

(** The order of the keys of a [std::map<int, int>]. *)
Definition key_le (x y : Z * Z) : Prop := x.1 <= y.1.

#[global] Instance key_le_dec : RelDecision key_le :=
  fun x y => decide (x.1 <= y.1).

(** The entries of a [std::map<int, int>] in iteration order (ascending
    keys). *)
Definition entries (m : gmap Z Z) : list (Z * Z) :=
  merge_sort key_le (map_to_list m).

(** One iteration of the filling loop of [map_to_vector]; a write at a
    negative index has no defined behaviour. *)
Definition fill (max_group_id : Z) (result : outcome (list float))
    (entry : Z * Z) : outcome (list float) :=
  let '(group_id, count) := entry in
  result ← result;
  if group_id <=? max_group_id then
    if group_id <? 0 then Undefined
    else Ret (<[Z.to_nat group_id := Double.of_int count]> result)
  else Ret result.

(** [vector<double> result(max_group_id + 1, 0.0)]: a negative int size
    converts to a [size_t] above [max_size()], and the constructor throws
    [length_error]. *)
Definition map_to_vector (occurrences : gmap Z Z) (max_group_id : Z)
    : outcome (list float) :=
  let size := Int.add max_group_id 1 in
  if size <? 0 then Throw length_error
  else
    foldl (fill max_group_id) (Ret (replicate (Z.to_nat size) 0%float))
          (entries occurrences).

Definition sq_diff_step (v1 v2 : list float) (sum_sq : float) (i : nat) : float :=
  let diff := (v1 !!! i - v2 !!! i)%float in
  (sum_sq + diff * diff)%float.

Definition sq_step (v : list float) (sum_sq : float) (i : nat) : float :=
  (sum_sq + v !!! i * v !!! i)%float.

(** Which of the two trailing loops of [euclidean_distance] runs. *)
Inductive tail_branch : Type := TailOfFirst | TailOfSecond | NoTail.

Definition trailing (v1 v2 : list float) : tail_branch :=
  let n := (length v1 `min` length v2)%nat in
  if (n <? length v1)%nat then TailOfFirst
  else if (n <? length v2)%nat then TailOfSecond
  else NoTail.

Definition euclidean_distance (v1 v2 : list float) : float :=
  let sum_sq := 0%float in
  let n := (length v1 `min` length v2)%nat in
  let sum_sq := foldl (sq_diff_step v1 v2) sum_sq (seq 0 n) in
  let sum_sq :=
    match trailing v1 v2 with
    | TailOfFirst => foldl (sq_step v1) sum_sq (seq n (length v1 - n))
    | TailOfSecond => foldl (sq_step v2) sum_sq (seq n (length v2 - n))
    | NoTail => sum_sq
    end in
  PrimFloat.sqrt sum_sq.

Definition feature_types : list string :=
  ["diatonic"; "chromatic"; "rhythmic"; "diatonic_rhythmic"; "chromatic_rhythmic"]%string.

(** The chain of comparisons that stores a distance in the field of its
    feature type. *)
Definition assign_score (feature_type : string) (distance_score : Z)
    (r : AlignmentScores) : AlignmentScores :=
  if decide (feature_type = "diatonic"%string) then
    {| id1 := id1 r; id2 := id2 r; level := level r;
       diatonic_score := distance_score;
       chromatic_score := chromatic_score r;
       rhythmic_score := rhythmic_score r;
       diatonic_rhythmic_score := diatonic_rhythmic_score r;
       chromatic_rhythmic_score := chromatic_rhythmic_score r |}
  else if decide (feature_type = "chromatic"%string) then
    {| id1 := id1 r; id2 := id2 r; level := level r;
       diatonic_score := diatonic_score r;
       chromatic_score := distance_score;
       rhythmic_score := rhythmic_score r;
       diatonic_rhythmic_score := diatonic_rhythmic_score r;
       chromatic_rhythmic_score := chromatic_rhythmic_score r |}
  else if decide (feature_type = "rhythmic"%string) then
    {| id1 := id1 r; id2 := id2 r; level := level r;
       diatonic_score := diatonic_score r;
       chromatic_score := chromatic_score r;
       rhythmic_score := distance_score;
       diatonic_rhythmic_score := diatonic_rhythmic_score r;
       chromatic_rhythmic_score := chromatic_rhythmic_score r |}
  else if decide (feature_type = "diatonic_rhythmic"%string) then
    {| id1 := id1 r; id2 := id2 r; level := level r;
       diatonic_score := diatonic_score r;
       chromatic_score := chromatic_score r;
       rhythmic_score := rhythmic_score r;
       diatonic_rhythmic_score := distance_score;
       chromatic_rhythmic_score := chromatic_rhythmic_score r |}
  else if decide (feature_type = "chromatic_rhythmic"%string) then
    {| id1 := id1 r; id2 := id2 r; level := level r;
       diatonic_score := diatonic_score r;
       chromatic_score := chromatic_score r;
       rhythmic_score := rhythmic_score r;
       diatonic_rhythmic_score := diatonic_rhythmic_score r;
       chromatic_rhythmic_score := distance_score |}
  else r.

Section SharedSweep.

Variable db : sqlite3.
Variable level : string.

(** [max_group_ids], filled before the sweep. *)
Definition max_group_ids : gmap string Z :=
  foldl (fun (m : gmap string Z) feature_type =>
           <[feature_type := get_max_group_id db feature_type]> m)
        ∅ feature_types.

(** [cached_occurrences], filled before the sweep. *)
Definition cached_occurrences (scores : list Z) : gmap (Z * string) (gmap Z Z) :=
  foldl (fun (cache : gmap (Z * string) (gmap Z Z)) score_id =>
           foldl (fun (cache : gmap (Z * string) (gmap Z Z)) feature_type =>
                    <[(score_id, feature_type) :=
                        get_group_occurrences db score_id feature_type]> cache)
                 cache feature_types)
        ∅ scores.

(** [cached_occurrences[{score_id, feature_type}]] *)
Definition cache_at (cache : gmap (Z * string) (gmap Z Z)) (k : Z * string)
    : gmap Z Z :=
  default ∅ (cache !! k).

(** The two profiles of one feature type that the sweep hands to
    [euclidean_distance]. *)
Definition profiles (cache : gmap (Z * string) (gmap Z Z)) (s_i s_j : Z)
    (feature_type : string) : outcome (list float * list float) :=
  let max_group_id := map_at max_group_ids feature_type in
  vector1 ← map_to_vector (cache_at cache (s_i, feature_type)) max_group_id;
  vector2 ← map_to_vector (cache_at cache (s_j, feature_type)) max_group_id;
  Ret (vector1, vector2).

(** The body of the loop over the feature types. *)
Definition feature_body (cache : gmap (Z * string) (gmap Z Z)) (s_i s_j : Z)
    (scores_result : AlignmentScores) (feature_type : string)
    : outcome AlignmentScores :=
  vs ← profiles cache s_i s_j feature_type;
  let distance := euclidean_distance vs.1 vs.2 in
  let distance_score := Double.to_int (Double.round (distance * 100)%float) in
  Ret (assign_score feature_type distance_score scores_result).

(** One pair's record; the five score fields of the fresh record hold
    no meaningful value until the loop assigns them. *)
Definition shared_compare (cache : gmap (Z * string) (gmap Z Z)) (s_i s_j : Z)
    : outcome AlignmentScores :=
  let scores_result :=
    {| id1 := s_i; id2 := s_j; Common.level := level;
       diatonic_score := 0; chromatic_score := 0; rhythmic_score := 0;
       diatonic_rhythmic_score := 0; chromatic_rhythmic_score := 0 |} in
  foldlM (feature_body cache s_i s_j) scores_result feature_types.

Definition process_shared_segments_alignments : outcome sqlite3 :=
  let scores := get_all_score_ids db in
  let cache := cached_occurrences scores in
  pair_loop (shared_compare cache) false scores db.

End SharedSweep.

End SharedSegments.

(** ** compute_features_alignment: parsing, loading, the sweep and [main] *)

Module ComputeFeaturesAlignment.

Import Common.

#[local] Open Scope string_scope.

(** *** [std::stoi] and [std::getline] *)

Definition isspace (c : ascii) : bool :=
  let n := nat_of_ascii c in
  (n =? 32)%nat || ((9 <=? n)%nat && (n <=? 13)%nat).

Fixpoint skip_spaces (s : string) : string :=
  match s with
  | String c s' => if isspace c then skip_spaces s' else s
  | EmptyString => s
  end.

Definition digit (c : ascii) : option Z :=
  let n := nat_of_ascii c in
  if (48 <=? n)%nat && (n <=? 57)%nat then Some (Z.of_nat n - 48) else None.

(** The longest run of decimal digits at the head of [s]: [None] when
    there is no digit, the accumulated value otherwise. *)
Fixpoint digits (acc : option Z) (s : string) : option Z :=
  match s with
  | String c s' =>
      match digit c with
      | Some d => digits (Some (10 * default 0 acc + d)) s'
      | None => acc
      end
  | EmptyString => acc
  end.

(** [stoi(str)] in base 10: leading white space, an optional sign, then
    digits; whatever follows the digits is ignored.  No digit:
    [invalid_argument]; a value outside int: [out_of_range]. *)
Definition stoi (str : string) : outcome Z :=
  let s := skip_spaces str in
  let '(negative, s) :=
    match s with
    | String "-" s' => (true, s')
    | String "+" s' => (false, s')
    | _ => (false, s)
    end in
  match digits None s with
  | None => Throw invalid_argument
  | Some v =>
      let v := if negative then - v else v in
      if ((Int.min_int <=? v) && (v <=? Int.max_int))%Z then Ret v
      else Throw out_of_range
  end.

(** The characters up to the first [delim], and what follows it. *)
Fixpoint read_until (delim : ascii) (s : string) : string * string :=
  match s with
  | String c s' =>
      if Ascii.eqb c delim then (EmptyString, s')
      else let '(value, rest) := read_until delim s' in (String c value, rest)
  | EmptyString => (EmptyString, EmptyString)
  end.

(** [getline(ss, value, delim)] on the unread part of the stream: fails
    when nothing is left to read. *)
Definition getline (ss : string) (delim : ascii) : option (string * string) :=
  match ss with
  | EmptyString => None
  | _ => Some (read_until delim ss)
  end.

(** *** [convert_feature_to_vector]

    The state of the loop is the unread input, [result] and the lines
    written to [cerr].  [fuel] bounds the number of iterations; [None]
    means it ran out. *)
Fixpoint convert_loop (fuel : nat) (ss : string) (result : list (option Z))
    (cerr : list string) : option (outcome (list (option Z) * list string)) :=
  match fuel with
  | O => None
  | S fuel =>
      match getline ss ";" with
      | None => Some (Ret (result, cerr))
      | Some (value, ss) =>
          if decide (value = "") then convert_loop fuel ss result cerr
          else if decide (value = "r") then
            convert_loop fuel ss (result ++ [None]) cerr
          else
            match stoi value with
            | Ret n => convert_loop fuel ss (result ++ [Some n]) cerr
            | Throw invalid_argument =>
                convert_loop fuel ss (result ++ [None])
                  (cerr ++ ["Invalid value in feature: " ++ value])
            | Throw out_of_range =>
                convert_loop fuel ss (result ++ [None])
                  (cerr ++ ["Value out of range: " ++ value])
            | Throw e => Some (Throw e)
            | Undefined => Some Undefined
            end
      end
  end.

Definition convert_feature_to_vector (feature : string)
    : outcome (list (option Z) * list string) :=
  match convert_loop (S (String.length feature)) feature [] [] with
  | Some o => o
  | None => Undefined
  end.

(** *** Loading the features *)

Definition get_structural_feature (db : sqlite3) (score_id : Z)
    (feature_type : string) : list (option Z) :=
  let feature_groups : list (option Z) := [] in
  if negb (prepares db SelectSegmentGroups) then feature_groups
  else
    foldl (fun feature_groups group_id => (feature_groups ++ [Some group_id])%list)
          feature_groups (segment_group_rows db score_id feature_type).

(** A row of [SELECT DISTINCT score_id FROM Score]: the id column only. *)
Definition id_row (score_id : Z) : feature_row :=
  {| col_id := score_id; col_diatonic := None; col_chromatic := None;
     col_rhythmic := None; col_diatonic_rhythmic := None;
     col_chromatic_rhythmic := None |}.

(** [convert_feature_to_vector(text ? text : "")]; the lines written to
    [cerr] are not kept. *)
Definition convert_column (text : option string) : outcome (list (option Z)) :=
  r ← convert_feature_to_vector (default "" text); Ret r.1.

(** The body of the loop over the rows of [get_feature_data]. *)
Definition load_row (db : sqlite3) (is_structure : bool)
    (data : list FeatureData) (row : feature_row) : outcome (list FeatureData) :=
  if is_structure then
    Ret (app data
      [{| id := col_id row;
          diatonic_feature := get_structural_feature db (col_id row) "diatonic";
          chromatic_feature := get_structural_feature db (col_id row) "chromatic";
          rhythmic_feature := get_structural_feature db (col_id row) "rhythmic";
          diatonic_rhythmic_feature :=
            get_structural_feature db (col_id row) "diatonic_rhythmic";
          chromatic_rhythmic_feature :=
            get_structural_feature db (col_id row) "chromatic_rhythmic" |}])
  else
    d ← convert_column (col_diatonic row);
    c ← convert_column (col_chromatic row);
    r ← convert_column (col_rhythmic row);
    dr ← convert_column (col_diatonic_rhythmic row);
    cr ← convert_column (col_chromatic_rhythmic row);
    Ret (app data
      [{| id := col_id row; diatonic_feature := d; chromatic_feature := c;
          rhythmic_feature := r; diatonic_rhythmic_feature := dr;
          chromatic_rhythmic_feature := cr |}]).

Definition get_feature_data (db : sqlite3) (is_segment is_structure : bool)
    : outcome (list FeatureData) :=
  let sql :=
    if is_segment then SelectSegmentFeatures
    else if is_structure then SelectScoreIds
    else SelectScoreFeatures in
  if negb (prepares db sql) then Ret []
  else
    let rows :=
      match sql with
      | SelectSegmentFeatures => segment_feature_rows db
      | SelectScoreIds => id_row <$> score_id_rows db
      | _ => score_feature_rows db
      end in
    foldlM (load_row db is_structure) [] rows.

(** *** [process_alignments] *)

#[global] Instance FeatureData_inhabited : Inhabited FeatureData :=
  populate {| id := 0; diatonic_feature := []; chromatic_feature := [];
              rhythmic_feature := []; diatonic_rhythmic_feature := [];
              chromatic_rhythmic_feature := [] |}.

(** One pair's record: the five alignments, with match score 0 and
    mismatch and gap penalties 1. *)
Definition align_pair (level : string) (d_i d_j : FeatureData) : AlignmentScores :=
  {| id1 := id d_i;
     id2 := id d_j;
     Common.level := level;
     diatonic_score :=
       GlobalAlignment.global_alignment
         (diatonic_feature d_i) (diatonic_feature d_j) 0 1 1;
     chromatic_score :=
       GlobalAlignment.global_alignment
         (chromatic_feature d_i) (chromatic_feature d_j) 0 1 1;
     rhythmic_score :=
       GlobalAlignment.global_alignment
         (rhythmic_feature d_i) (rhythmic_feature d_j) 0 1 1;
     diatonic_rhythmic_score :=
       GlobalAlignment.global_alignment
         (diatonic_rhythmic_feature d_i) (diatonic_rhythmic_feature d_j) 0 1 1;
     chromatic_rhythmic_score :=
       GlobalAlignment.global_alignment
         (chromatic_rhythmic_feature d_i) (chromatic_rhythmic_feature d_j) 0 1 1 |}.

Definition process_alignments (db : sqlite3) (data : list FeatureData)
    (is_segment : bool) (level : string) : outcome sqlite3 :=
  pair_loop (fun d_i d_j => Ret (align_pair level d_i d_j)) is_segment data db.

(** *** [main]

    [argv] is the argument vector and [opened] what
    [initialize_database] returns ([None] for a null pointer).  The result
    is the exit status with the connection as the run leaves it. *)
Definition main (argv : list string) (opened : option sqlite3)
    : outcome (Z * option sqlite3) :=
  let argc := length argv in
  if (argc <? 2)%nat then Ret (1%Z, None)
  else
    let is_segment := bool_decide (argv !!! 1%nat = "--type=segment") in
    let level := "" in
    let checked : Z + string :=
      if negb is_segment then
        if negb (argc =? 4)%nat || negb (bool_decide (argv !!! 2%nat = "--level"))
        then inl 1%Z
        else
          let level := argv !!! 3%nat in
          if bool_decide (level ≠ "note") && bool_decide (level ≠ "structure")
             && bool_decide (level ≠ "shared_segments")
          then inl 1%Z
          else inr level
      else inr level in
    match checked with
    | inl status => Ret (status, None)
    | inr level =>
        match opened with
        | None => Ret (1%Z, None)
        | Some db =>
            db ← (if negb is_segment && bool_decide (level = "shared_segments")
                  then SharedSegments.process_shared_segments_alignments db level
                  else
                    data ← get_feature_data db is_segment
                              (bool_decide (level = "structure"));
                    process_alignments db data is_segment level);
            Ret (0%Z, Some db)
        end
    end.

End ComputeFeaturesAlignment.

(** * Specification

    The notions the properties are stated with: what the design document
    says of each operation, the invariants of the loops, and a small store
    to run the drivers on. *)

Import GlobalAlignment Common SharedSegments ComputeFeaturesAlignment.

(** [col] holds row [i] of the cost matrix of [a] and [b] up to column
    [k]. *)
Definition holds_row (a b : list (option Z)) (match_score mismatch_penalty gap_penalty : Z)
    (i k : nat) (col : list Z) : Prop :=
  length col = S (length b)
  /\ forall j, (j <= k)%nat ->
       col !! j
       = Some (GlobalAlignment.cost a b match_score mismatch_penalty gap_penalty i j).

(** The index pairs of the nested ascending scan, in scan order. *)
Definition index_pairs (n : nat) : list (nat * nat) :=
  i ← seq 0 n; (fun j => (i, j)) <$> seq (S i) (n - S i).

(** The writer applied to a sequence of batches. *)
Definition save_batches (is_segment : bool) (db : sqlite3)
    (batches : list (list AlignmentScores)) : sqlite3 :=
  foldl (fun db batch => save_alignments_batch db batch is_segment) db batches.

(** The records of a sweep, in scan order. *)
Definition pair_records {E : Type} `{!Inhabited E} (record : E -> E -> AlignmentScores)
    (data : list E) : list AlignmentScores :=
  (fun p => record (data !!! p.1) (data !!! p.2)) <$> index_pairs (length data).

(** The store prepares the insert statement and takes every row. *)
Definition healthy (db : sqlite3) (is_segment : bool) : Prop :=
  prepares db (if is_segment then InsertSegmentAlignment else InsertScoreAlignment) = true
  /\ forall t r, accepts db t r = true.


(** The dense profile of an occurrence map: cell [k] holds the count of
    group [k], 0 when the group is absent, for [k] from 0 to
    [max_group_id]. *)
Definition profile (occurrences : gmap Z Z) (max_group_id : Z) : list float :=
  (fun k => match occurrences !! Z.of_nat k with
            | Some count => Double.of_int count
            | None => 0%float
            end) <$> seq 0 (Z.to_nat (max_group_id + 1)).

(** The filling loop without its failure case. *)
Definition fill_cell (max_group_id : Z) (result : list float) (entry : Z * Z)
    : list float :=
  if entry.1 <=? max_group_id
  then <[Z.to_nat entry.1 := Double.of_int entry.2]> result
  else result.

(** Group ids are indices: none is negative, and the largest leaves room
    for the size [max_group_id + 1]. *)
Definition well_formed_groups (db : sqlite3) : Prop :=
  (forall score_id feature_type g,
      g ∈ segment_group_rows db score_id feature_type -> 0 <= g)
  /\ (forall feature_type g,
      max_group_id_row db feature_type = Some g -> 0 <= g < Int.max_int).

(** The distance the sweep stores for one feature type: the Euclidean
    distance of the two profiles, times 100, rounded. *)
Definition profile_score (db : sqlite3) (cache : gmap (Z * string) (gmap Z Z))
    (s_i s_j : Z) (feature_type : string) : Z :=
  let max_group_id := map_at (max_group_ids db) feature_type in
  Double.to_int (Double.round
    (euclidean_distance
       (profile (cache_at cache (s_i, feature_type)) max_group_id)
       (profile (cache_at cache (s_j, feature_type)) max_group_id) * 100)%float).

(** The record of one pair of the shared-segments sweep. *)
Definition shared_record (db : sqlite3) (level : string)
    (cache : gmap (Z * string) (gmap Z Z)) (s_i s_j : Z) : AlignmentScores :=
  {| id1 := s_i; id2 := s_j; Common.level := level;
     diatonic_score := profile_score db cache s_i s_j "diatonic";
     chromatic_score := profile_score db cache s_i s_j "chromatic";
     rhythmic_score := profile_score db cache s_i s_j "rhythmic";
     diatonic_rhythmic_score := profile_score db cache s_i s_j "diatonic_rhythmic";
     chromatic_rhythmic_score := profile_score db cache s_i s_j "chromatic_rhythmic" |}.

(** A small store: three scores whose segments fall into groups 0 to 2. *)
Definition sample_db : sqlite3 :=
  {| prepares := fun _ => true;
     score_id_rows := [1; 2; 3];
     segment_feature_rows := [];
     score_feature_rows :=
       [ {| col_id := 1; col_diatonic := Some "1"%string; col_chromatic := Some "1;2"%string;
            col_rhythmic := Some "4"%string; col_diatonic_rhythmic := Some "r;1"%string;
            col_chromatic_rhythmic := None |};
         {| col_id := 2; col_diatonic := Some "1"%string; col_chromatic := Some "1;3"%string;
            col_rhythmic := Some "4"%string; col_diatonic_rhythmic := Some "r;1"%string;
            col_chromatic_rhythmic := None |};
         {| col_id := 3; col_diatonic := Some "2"%string; col_chromatic := Some "x"%string;
            col_rhythmic := Some "4;4"%string; col_diatonic_rhythmic := Some "r"%string;
            col_chromatic_rhythmic := None |} ];
     segment_group_rows := fun score_id _ =>
       if score_id =? 1 then [0; 1] else if score_id =? 2 then [1; 1; 2] else [2];
     max_group_id_row := fun _ => Some 2;
     accepts := fun _ _ => true;
     SegmentAlignment := [];
     ScoreAlignment := [] |}.

(** The sum of squared differences over the overlapping prefix, added to
    [acc] from left to right. *)
Definition sum_sq_diffs (acc : float) (overlap : list (float * float)) : float :=
  foldl (fun s p => (s + (p.1 - p.2) * (p.1 - p.2))%float) acc overlap.

(** The squared values of trailing elements, added to [acc] from left to
    right. *)
Definition sum_sqs (acc : float) (trail : list float) : float :=
  foldl (fun s x => (s + x * x)%float) acc trail.

(** The distance as the design document words it: the overlapping prefix,
    then the trailing elements of the longer vector, then the square
    root. *)
Definition padded_distance (v1 v2 : list float) : float :=
  PrimFloat.sqrt
    (sum_sqs (sum_sq_diffs 0%float (zip v1 v2))
             (drop (length v2) v1 ++ drop (length v1) v2)).

(** The distance of the two vectors once the shorter is padded with
    zeros to the length of the longer. *)
Definition zero_padded_distance (v1 v2 : list float) : float :=
  let n := (length v1 `max` length v2)%nat in
  PrimFloat.sqrt
    (sum_sq_diffs 0%float (zip (resize n 0%float v1) (resize n 0%float v2))).

(** The fields of an encoding: the text between consecutive delimiters. *)
Fixpoint fields (feature : string) : list string :=
  match feature with
  | EmptyString => [EmptyString]
  | String c rest =>
      if Ascii.eqb c ";" then EmptyString :: fields rest
      else
        match fields rest with
        | f :: fs => String c f :: fs
        | [] => [String c EmptyString]
        end
  end.

(** The tokens of an encoding: its non-empty fields. *)
Definition tokens (feature : string) : list string :=
  filter (fun t => t <> EmptyString) (fields feature).

(** The element a token stands for. *)
Definition element (token : string) : option Z :=
  if decide (token = "r"%string) then None
  else match stoi token with
       | Ret n => Some n
       | _ => None
       end.

(** The lines a token adds to [cerr]. *)
Definition diagnostic (token : string) : list string :=
  if decide (token = "r"%string) then []
  else match stoi token with
       | Throw invalid_argument => [("Invalid value in feature: " ++ token)%string]
       | Throw out_of_range => [("Value out of range: " ++ token)%string]
       | _ => []
       end.

(** What [main] does in score mode once the level is accepted and the
    store is open. *)
Definition score_sweep (db : sqlite3) (level : string) : outcome (Z * option sqlite3) :=
  db ← (if bool_decide (level = "shared_segments"%string)
        then process_shared_segments_alignments db level
        else
          data ← get_feature_data db false (bool_decide (level = "structure"%string));
          process_alignments db data false level);
  Ret (0, Some db).

(** The answers of the store to the queries of the sources. *)
Definition same_queries (db db' : sqlite3) : Prop :=
  prepares db' = prepares db
  /\ accepts db' = accepts db
  /\ score_id_rows db' = score_id_rows db
  /\ segment_feature_rows db' = segment_feature_rows db
  /\ score_feature_rows db' = score_feature_rows db
  /\ segment_group_rows db' = segment_group_rows db
  /\ max_group_id_row db' = max_group_id_row db.

(** The store a sweep has reached is the initial store after one call of
    the writer on some records. *)
Definition saved_so_far (is_segment : bool) (db : sqlite3)
    (st : list AlignmentScores * sqlite3) : Prop :=
  exists records, st.2 = save_alignments_batch db records is_segment.

(** The command lines the usage text allows: segment mode, or a sweep of
    the scores at one of the three levels. *)
Definition accepted_command_line (argv : list string) : Prop :=
  (exists prog rest, argv = prog :: "--type=segment"%string :: rest)
  \/ (exists prog type level,
        argv = [prog; type; "--level"%string; level]
        /\ type <> "--type=segment"%string
        /\ level ∈ ["note"; "structure"; "shared_segments"]%string).

(** How many of the rows carry the group id [g]. *)
Definition occurrences_of (g : Z) (rows : list Z) : nat :=
  length (filter (fun r => r = g) rows).

(** The answer of the store to one of the feature queries. *)
Definition feature_query_rows (db : sqlite3) (is_segment is_structure : bool)
    : list feature_row :=
  if is_segment then
    if prepares db SelectSegmentFeatures then segment_feature_rows db else []
  else if is_structure then
    if prepares db SelectScoreIds then id_row <$> score_id_rows db else []
  else
    if prepares db SelectScoreFeatures then score_feature_rows db else [].

(** The sequence a text column stands for: one element per token, a NULL
    column read as the empty text. *)
Definition column_sequence (text : option string) : list (option Z) :=
  element <$> tokens (default EmptyString text).

(** The record [get_feature_data] builds from one row. *)
Definition loaded_row (db : sqlite3) (is_structure : bool) (row : feature_row)
    : FeatureData :=
  if is_structure then
    {| id := col_id row;
       diatonic_feature := get_structural_feature db (col_id row) "diatonic";
       chromatic_feature := get_structural_feature db (col_id row) "chromatic";
       rhythmic_feature := get_structural_feature db (col_id row) "rhythmic";
       diatonic_rhythmic_feature :=
         get_structural_feature db (col_id row) "diatonic_rhythmic";
       chromatic_rhythmic_feature :=
         get_structural_feature db (col_id row) "chromatic_rhythmic" |}
  else
    {| id := col_id row;
       diatonic_feature := column_sequence (col_diatonic row);
       chromatic_feature := column_sequence (col_chromatic row);
       rhythmic_feature := column_sequence (col_rhythmic row);
       diatonic_rhythmic_feature := column_sequence (col_diatonic_rhythmic row);
       chromatic_rhythmic_feature := column_sequence (col_chromatic_rhythmic row) |}.

(** Neither an infinity nor a NaN. *)
Definition is_finite (x : float) : bool :=
  match Prim2SF x with
  | SpecFloat.S754_zero _ | SpecFloat.S754_finite _ _ _ => true
  | _ => false
  end.

(** The character, if any, is no decimal digit. *)
Definition no_leading_digit (s : string) : Prop :=
  match s with
  | String c _ => digit c = None
  | EmptyString => True
  end.

(** The text holds a delimiter. *)
Fixpoint has_delimiter (s : string) : bool :=
  match s with
  | String c rest => Ascii.eqb c ";" || has_delimiter rest
  | EmptyString => false
  end.

(** * Properties *)

(** ** Machine integers *)

Section IntFacts.

Lemma wrap_small z : Int.in_range z -> Int.wrap z = z.
Proof.
  unfold Int.in_range, Int.min_int, Int.max_int, Int.wrap. intros Hz.
  rewrite Z.mod_small; lia.
Qed.

Lemma wrap_in_range z : Int.in_range (Int.wrap z).
Proof.
  unfold Int.in_range, Int.min_int, Int.max_int, Int.wrap.
  pose proof (Z.mod_pos_bound (z + 2 ^ 31) (2 ^ 32)). lia.
Qed.

Lemma mul_zero_l g : Int.mul 0 g = 0.
Proof. reflexivity. Qed.

End IntFacts.

(** ** The rolling columns against the full matrix *)

Section RollingColumns.

Import GlobalAlignment.

Variables a b : list (option Z).
Variables match_score mismatch_penalty gap_penalty : Z.

#[local] Abbreviation cost := (cost a b match_score mismatch_penalty gap_penalty).
#[local] Abbreviation n := (length b).
#[local] Abbreviation holds :=
  (holds_row a b match_score mismatch_penalty gap_penalty).

Lemma cost_row_0 j : cost 0 j = Int.mul (Z.of_nat j) gap_penalty.
Proof. reflexivity. Qed.

Lemma cost_col_0 i : cost i 0 = Int.mul (Z.of_nat i) gap_penalty.
Proof. destruct i; reflexivity. Qed.

Lemma cost_step i j :
  cost (S i) (S j) =
  min_of_three
    (Int.add (cost i j) (pairScore (a !!! i) (b !!! j) match_score mismatch_penalty))
    (Int.add (cost i (S j)) gap_penalty)
    (Int.add (cost (S i) j) gap_penalty).
Proof. reflexivity. Qed.

Lemma cell_score_pairScore i j :
  cell_score a b match_score mismatch_penalty (S i) (S j) =
  pairScore (a !!! i) (b !!! j) match_score mismatch_penalty.
Proof.
  unfold cell_score. cbn [Nat.sub]. rewrite !Nat.sub_0_r.
  destruct (a !!! i) as [u|], (b !!! j) as [v|]; reflexivity.
Qed.

Lemma holds_row_total i k col j :
  holds i k col -> (j <= k)%nat -> col !!! j = cost i j.
Proof.
  intros [_ Hcol] Hj. apply list_lookup_total_correct. auto.
Qed.

Lemma init_first_row_fill (f : nat -> Z) k col :
  (k <= length col)%nat ->
  let col' := foldl (fun col i => <[i := f i]> col) col (seq 0 k) in
  length col' = length col /\ forall j, (j < k)%nat -> col' !! j = Some (f j).
Proof.
  induction k as [|k IH]; intros Hk; cbn zeta.
  - split; [done | lia].
  - rewrite seq_S, foldl_app. cbn [foldl Nat.add].
    destruct IH as [Hlen Hcol]; [lia|].
    split; [by rewrite length_insert|].
    intros j Hj. destruct (decide (j = k)) as [->|Hne].
    + apply list_lookup_insert_eq. lia.
    + rewrite list_lookup_insert_ne by done. apply Hcol. lia.
Qed.

Lemma init_first_row_holds :
  holds 0 n (init_first_row gap_penalty n).
Proof.
  unfold init_first_row, holds_row.
  destruct (init_first_row_fill (fun i => Int.mul (Z.of_nat i) gap_penalty)
              (S n) (replicate (S n) 0)) as [Hlen Hcol].
  { by rewrite length_replicate. }
  rewrite length_replicate in Hlen. split; [done|].
  intros j Hj. rewrite Hcol by lia. by rewrite cost_row_0.
Qed.

Lemma inner_loop_holds i prev cur k :
  holds i n prev ->
  length cur = S n ->
  cur !! 0%nat = Some (cost (S i) 0) ->
  (k <= n)%nat ->
  holds (S i) k
    (foldl (inner_body a b match_score mismatch_penalty gap_penalty (S i) prev)
           cur (seq 1 k)).
Proof.
  intros Hprev Hlen H0. induction k as [|k IH]; intros Hk.
  - split; [done|]. intros j Hj. by replace j with 0%nat by lia.
  - rewrite seq_S, foldl_app. cbn [foldl Nat.add].
    specialize (IH ltac:(lia)).
    set (c := foldl _ cur (seq 1 k)) in *.
    unfold inner_body. cbn [Nat.sub]. rewrite Nat.sub_0_r.
    rewrite cell_score_pairScore.
    rewrite (holds_row_total i n prev k), (holds_row_total i n prev (S k)),
      (holds_row_total (S i) k c k) by (done || lia).
    destruct IH as [Hc Hcol]. split; [by rewrite length_insert|].
    intros j Hj. destruct (decide (j = S k)) as [->|Hne].
    + rewrite list_lookup_insert_eq by lia. by rewrite cost_step.
    + rewrite list_lookup_insert_ne by done. apply Hcol. lia.
Qed.

Lemma outer_loop_holds k :
  (k <= length a)%nat ->
  exists col,
    foldl (outer_body a b match_score mismatch_penalty gap_penalty n)
          (init_first_row gap_penalty n, init_first_row gap_penalty n)
          (seq 1 k) = (col, col)
    /\ holds k n col.
Proof.
  induction k as [|k IH]; intros Hk.
  - eexists. split; [reflexivity|]. apply init_first_row_holds.
  - destruct IH as (col & Hfold & Hcol); [lia|].
    rewrite seq_S, foldl_app, Hfold. cbn [foldl Nat.add outer_body].
    eexists. split; [reflexivity|].
    apply inner_loop_holds; try done.
    + rewrite length_insert. apply Hcol.
    + rewrite list_lookup_insert_eq by (destruct Hcol as [-> _]; lia).
      by rewrite cost_col_0.
Qed.

Lemma global_alignment_cost :
  global_alignment a b match_score mismatch_penalty gap_penalty
  = cost (length a) n.
Proof.
  unfold global_alignment.
  destruct (outer_loop_holds (length a)) as (col & -> & Hcol); [done|].
  by apply (holds_row_total (length a) n).
Qed.

End RollingColumns.

Lemma min_of_three_swap x y z : min_of_three x y z = min_of_three x z y.
Proof. unfold min_of_three. lia. Qed.

Lemma pairScore_sym (u v : option Z) m x : pairScore u v m x = pairScore v u m x.
Proof.
  destruct u as [u|], v as [v|]; cbn; try reflexivity.
  by rewrite Z.eqb_sym.
Qed.

Lemma cost_transpose a b m x g i j : cost a b m x g i j = cost b a m x g j i.
Proof.
  revert j. induction i as [|i IHi]; intros j.
  - by rewrite cost_row_0, cost_col_0.
  - induction j as [|j IHj].
    + by rewrite cost_row_0, cost_col_0.
    + rewrite !cost_step, (IHi j), (IHi (S j)), IHj, (pairScore_sym (a !!! i)).
      apply min_of_three_swap.
Qed.

(** Claim C4.  The two rolling columns of [global_alignment] compute the
    bottom-right cell of the full (m+1) x (n+1) cost matrix: row and column
    0 hold index times gap_penalty, and every other cell is the minimum of
    the diagonal neighbour plus [pairScore] and of the upper and left
    neighbours plus gap_penalty. *)
Theorem global_alignment_refines_matrix a b m x g :
  global_alignment a b m x g = matrix_alignment a b m x g.
Proof. apply global_alignment_cost. Qed.

(** Claim C3.  [global_alignment] is symmetric in its two sequences, for
    every match score, mismatch penalty and gap penalty. *)
Theorem global_alignment_symmetric a b m x g :
  global_alignment a b m x g = global_alignment b a m x g.
Proof. rewrite !global_alignment_cost. apply cost_transpose. Qed.

(** Claim C5.  Against an empty sequence, a sequence of length L costs
    L times gap_penalty, whichever side is empty, and two empty sequences
    cost 0.  The product is the one the source computes on ints; it is the
    mathematical product whenever that fits an int. *)
Theorem global_alignment_empty (b : list (option Z)) m x g :
  global_alignment [] b m x g = Int.mul (Z.of_nat (length b)) g
  /\ global_alignment b [] m x g = Int.mul (Z.of_nat (length b)) g
  /\ global_alignment [] [] m x g = 0
  /\ (Int.in_range (Z.of_nat (length b) * g) ->
      global_alignment [] b m x g = Z.of_nat (length b) * g
      /\ global_alignment b [] m x g = Z.of_nat (length b) * g).
Proof.
  rewrite !global_alignment_cost. cbn [length].
  rewrite cost_row_0, cost_col_0. repeat split; try reflexivity.
  all: by apply wrap_small.
Qed.

Lemma global_alignment_empty_witness :
  Int.in_range (Z.of_nat (length [Some 4; None; Some 7]) * 3)
  /\ global_alignment [] [Some 4; None; Some 7] 0 1 3 = 9
  /\ global_alignment [Some 4; None; Some 7] [] 0 1 3 = 9.
Proof.
  assert (H : Int.in_range (Z.of_nat (length [Some 4; None; Some 7]) * 3)).
  { unfold Int.in_range, Int.min_int, Int.max_int. cbn. lia. }
  split; [exact H|].
  exact (proj2 (proj2 (proj2 (global_alignment_empty [Some 4; None; Some 7] 0 1 3))) H).
Defined.


Section NonNegative.
Variables a b : list (option Z).
Variables m x g : Z.
Hypothesis Hm : 0 <= m.
Hypothesis Hx : 0 <= x.
Hypothesis Hg : 0 <= g.
Hypothesis Hfit :
  Z.of_nat (length a + length b) * g + Z.max m x <= Int.max_int.

Lemma pairScore_bounds u v : 0 <= pairScore u v m x <= Z.max m x.
Proof.
  destruct u as [u|], v as [v|]; cbn; try lia.
  destruct (u =? v); lia.
Qed.

Lemma cost_bounds i j :
  (i <= length a)%nat -> (j <= length b)%nat ->
  0 <= cost a b m x g i j <= Z.of_nat (i + j) * g.
Proof.
  assert (Hw : forall z, 0 <= z <= Int.max_int -> Int.wrap z = z).
  { intros z Hz. apply wrap_small. unfold Int.in_range, Int.min_int. lia. }
  revert j. induction i as [|i IHi]; intros j Hi Hj.
  - rewrite cost_row_0. unfold Int.mul. rewrite Hw; [nia|]. nia.
  - induction j as [|j IHj].
    + rewrite cost_col_0. unfold Int.mul. rewrite Hw; [nia|]. nia.
    + rewrite cost_step.
      pose proof (IHi j ltac:(lia) ltac:(lia)) as H1.
      pose proof (IHi (S j) ltac:(lia) ltac:(lia)) as H2.
      pose proof (IHj ltac:(lia)) as H3.
      pose proof (pairScore_bounds (a !!! i) (b !!! j)) as H4.
      unfold Int.add. rewrite !Hw by nia.
      unfold min_of_three. nia.
Qed.

End NonNegative.



Lemma foldlM_app {A B} (f : A -> B -> outcome A) a l k :
  foldlM f a (l ++ k) = (a' ← foldlM f a l; foldlM f a' k).
Proof.
  revert a. induction l as [|x l IH]; intros a'; cbn; [done|].
  destruct (f a' x); cbn; auto.
Qed.

Lemma foldlM_fmap {A B C} (f : A -> B -> outcome A) (g : C -> B) a l :
  foldlM f a (g <$> l) = foldlM (fun a c => f a (g c)) a l.
Proof.
  revert a. induction l as [|x l IH]; intros a'; cbn; [done|].
  destruct (f a' (g x)); cbn; auto.
Qed.

Lemma foldlM_bind {A B C} (f : A -> B -> outcome A) (g : C -> list B) a l :
  foldlM f a (l ≫= g) = foldlM (fun a c => foldlM f a (g c)) a l.
Proof.
  revert a. induction l as [|x l IH]; intros a'; cbn; [done|].
  rewrite foldlM_app. destruct (foldlM f a' (g x)); cbn; auto.
Qed.

Section IndexPairs.

Lemma elem_of_index_pairs n i j :
  (i, j) ∈ index_pairs n <-> (i < j < n)%nat.
Proof.
  unfold index_pairs. rewrite list_elem_of_bind. split.
  - intros (i' & Hj & Hi). apply list_elem_of_fmap in Hj as (j' & [= -> ->] & Hj).
    apply elem_of_seq in Hi, Hj. lia.
  - intros Hij. exists i. split.
    + apply list_elem_of_fmap. exists j. split; [done|]. apply elem_of_seq. lia.
    + apply elem_of_seq. lia.
Qed.





End IndexPairs.

Lemma foldlM_ext {A B} (f g : A -> B -> outcome A) a l :
  (forall a x, f a x = g a x) -> foldlM f a l = foldlM g a l.
Proof.
  intros Hfg. revert a. induction l as [|x l IH]; intros a; cbn; [done|].
  rewrite Hfg. destruct (g a x); cbn; auto.
Qed.

Lemma BATCH_SIZE_pos : (0 < BATCH_SIZE)%nat.
Proof. unfold BATCH_SIZE. lia. Qed.

Lemma save_batches_snoc is_segment db batches batch :
  save_batches is_segment db (batches ++ [batch])
  = save_alignments_batch (save_batches is_segment db batches) batch is_segment.
Proof. unfold save_batches. by rewrite foldl_app. Qed.

Section PairLoopFacts.

Context {E : Type} `{!Inhabited E}.
Variable compare : E -> E -> outcome AlignmentScores.
Variable record : E -> E -> AlignmentScores.
Variable is_segment : bool.
Variable data : list E.

Hypothesis compare_returns : forall i j,
  (i < j < length data)%nat ->
  compare (data !!! i) (data !!! j) = Ret (record (data !!! i) (data !!! j)).

Lemma pair_loop_flat st :
  foldlM (row_body compare is_segment data) st (seq 0 (length data))
  = foldlM (fun st p => pair_body compare is_segment data p.1 st p.2) st
      (index_pairs (length data)).
Proof.
  unfold index_pairs. rewrite foldlM_bind. apply foldlM_ext.
  intros a i. by rewrite foldlM_fmap.
Qed.

Lemma pair_body_returns i j batch db :
  (i < j < length data)%nat ->
  pair_body compare is_segment data i (batch, db) j
  = let batch := batch ++ [record (data !!! i) (data !!! j)] in
    if (BATCH_SIZE <=? length batch)%nat
    then Ret ([], save_alignments_batch db batch is_segment)
    else Ret (batch, db).
Proof. intros Hij. unfold pair_body. by rewrite compare_returns. Qed.

Lemma pairs_fold db (l : list (nat * nat)) :
  (forall p, p ∈ l -> (p.1 < p.2 < length data)%nat) ->
  forall batches batch,
    (length batch < BATCH_SIZE)%nat ->
    Forall (fun b => (0 < length b <= BATCH_SIZE)%nat) batches ->
    exists batches' batch',
      foldlM (fun st p => pair_body compare is_segment data p.1 st p.2)
        (batch, save_batches is_segment db batches) l
      = Ret (batch', save_batches is_segment db batches')
      /\ concat batches' ++ batch'
         = concat batches ++ batch
             ++ ((fun p => record (data !!! p.1) (data !!! p.2)) <$> l)
      /\ (length batch' < BATCH_SIZE)%nat
      /\ Forall (fun b => (0 < length b <= BATCH_SIZE)%nat) batches'.
Proof.
  induction l as [|[i j] l IH]; intros Hl batches batch Hlen Hall.
  - exists batches, batch. cbn. by rewrite !app_nil_r.
  - cbn [foldlM fst snd].
    rewrite pair_body_returns by (apply (Hl (i, j)); left). cbn zeta.
    set (r := record (data !!! i) (data !!! j)).
    assert (Hl' : forall p, p ∈ l -> (p.1 < p.2 < length data)%nat).
    { intros p Hp. apply Hl. by right. }
    destruct (BATCH_SIZE <=? length (batch ++ [r]))%nat eqn:Hfull.
    + apply Nat.leb_le in Hfull. rewrite length_app in Hfull. cbn in Hfull.
      cbn [mbind outcome_bind]. rewrite <- save_batches_snoc.
      destruct (IH Hl' (batches ++ [batch ++ [r]]) []) as (bs & b & Hrun & Hcat & Hb & Hbs).
      { apply BATCH_SIZE_pos. }
      { apply Forall_app. split; [done|]. constructor; [|done].
        rewrite length_app. cbn. lia. }
      exists bs, b. split_and!; try done.
      rewrite Hcat, concat_app. cbn [concat fmap list_fmap].
      by rewrite !app_nil_r, <- !app_assoc.
    + apply Nat.leb_gt in Hfull. cbn [mbind outcome_bind].
      destruct (IH Hl' batches (batch ++ [r])) as (bs & b & Hrun & Hcat & Hb & Hbs);
        [done..|].
      exists bs, b. split_and!; try done.
      rewrite Hcat. cbn [fmap list_fmap]. by rewrite <- !app_assoc.
Qed.

Lemma pair_loop_batches db :
  exists batches,
    pair_loop compare is_segment data db
    = Ret (save_batches is_segment db batches)
    /\ concat batches = pair_records record data
    /\ Forall (fun b => (0 < length b <= BATCH_SIZE)%nat) batches.
Proof.
  unfold pair_loop. rewrite pair_loop_flat.
  destruct (pairs_fold db (index_pairs (length data))
              ltac:(intros [i j] Hp; by apply elem_of_index_pairs in Hp)
              [] [] BATCH_SIZE_pos ltac:(constructor))
    as (bs & b & Hrun & Hcat & Hb & Hbs).
  change (save_batches is_segment db []) with db in Hrun. rewrite Hrun.
  cbn [mbind outcome_bind]. cbn in Hcat.
  destruct b as [|r b].
  - exists bs. rewrite app_nil_r in Hcat. done.
  - exists (bs ++ [r :: b]). rewrite save_batches_snoc. split_and!; [done| |].
    + rewrite concat_app. cbn. by rewrite app_nil_r.
    + apply Forall_app. split; [done|]. constructor; [|done]. cbn in *. lia.
Qed.

End PairLoopFacts.

Section Writer.

Variable is_segment : bool.

Lemma step_insert_queries db a :
  let db' := step_insert is_segment db a in
  prepares db' = prepares db /\ accepts db' = accepts db
  /\ score_id_rows db' = score_id_rows db
  /\ segment_group_rows db' = segment_group_rows db
  /\ max_group_id_row db' = max_group_id_row db.
Proof.
  unfold step_insert, insert_row. cbn zeta.
  destruct (accepts db _ _); [|done]. by destruct is_segment.
Qed.

Lemma table_insert_row db r :
  table (insert_row db is_segment r) is_segment = table db is_segment ++ [r]
  /\ table (insert_row db is_segment r) (negb is_segment)
     = table db (negb is_segment).
Proof. unfold insert_row, table. by destruct is_segment. Qed.


Lemma insert_loop_stored alignments : forall db,
  exists stored,
    let db' := foldl (step_insert is_segment) db alignments in
    table db' is_segment = table db is_segment ++ stored
    /\ table db' (negb is_segment) = table db (negb is_segment)
    /\ prepares db' = prepares db /\ accepts db' = accepts db
    /\ stored `sublist_of` (bound_row is_segment <$> alignments)
    /\ ((forall t r, accepts db t r = true) ->
        stored = bound_row is_segment <$> alignments).
Proof.
  induction alignments as [|a alignments IH]; intros db; cbn [foldl].
  - exists []. cbn. rewrite app_nil_r. split_and!; done.
  - destruct (IH (step_insert is_segment db a))
      as (stored & Ht & Ho & Hp & Ha & Hsub & Hall).
    destruct (step_insert_queries db a) as (Hp' & Ha' & _).
    unfold step_insert in *.
    destruct (accepts db (table db is_segment) (bound_row is_segment a)) eqn:Hacc.
    + destruct (table_insert_row db (bound_row is_segment a)) as [Ht' Ho'].
      exists (bound_row is_segment a :: stored). cbn zeta.
      rewrite Ht, Ht', Ho, Ho', Hp, Ha, <- app_assoc.
      split_and!; try done.
      * cbn. by constructor.
      * intros Hyes. cbn. f_equal. apply Hall. intros t r.
        destruct is_segment; apply Hyes.
    + exists stored. cbn zeta. split_and!; try done.
      * cbn. by constructor.
      * intros Hyes. by rewrite Hyes in Hacc.
Qed.

Lemma save_alignments_batch_stored db alignments :
  exists stored,
    let db' := save_alignments_batch db alignments is_segment in
    table db' is_segment = table db is_segment ++ stored
    /\ table db' (negb is_segment) = table db (negb is_segment)
    /\ prepares db' = prepares db /\ accepts db' = accepts db
    /\ stored `sublist_of` (bound_row is_segment <$> alignments)
    /\ (healthy db is_segment -> stored = bound_row is_segment <$> alignments).
Proof.
  unfold save_alignments_batch, healthy.
  destruct (prepares db _) eqn:Hprep; cbn [negb].
  - destruct (insert_loop_stored alignments db)
      as (stored & Ht & Ho & Hp & Ha & Hsub & Hall).
    exists stored. split_and!; try done. intros [_ Hyes]. auto.
  - exists []. cbn. rewrite app_nil_r. split_and!; try done.
    + apply sublist_nil_l.
    + by intros [? _].
Qed.

End Writer.


Section MapToVector.

Variable max_group_id : Z.

Lemma fill_loop_pure (l : list (Z * Z)) : forall result,
  (forall p, p ∈ l -> 0 <= p.1) ->
  foldl (fill max_group_id) (Ret result) l
  = Ret (foldl (fill_cell max_group_id) result l).
Proof.
  induction l as [|[g c] l IH]; intros result Hl; [done|].
  cbn [foldl]. unfold fill at 2, fill_cell at 2. cbn [mbind outcome_bind fst snd].
  pose proof (Hl (g, c) ltac:(left)) as Hg. cbn in Hg.
  assert (Hl' : forall p, p ∈ l -> 0 <= p.1) by (intros; apply Hl; by right).
  destruct (g <=? max_group_id); [|by apply IH].
  destruct (Z.ltb_spec g 0); [lia|]. by apply IH.
Qed.

Lemma length_fill_cells (l : list (Z * Z)) : forall result,
  length (foldl (fill_cell max_group_id) result l) = length result.
Proof.
  induction l as [|p l IH]; intros result; [done|].
  cbn [foldl]. rewrite IH. unfold fill_cell.
  destruct (_ <=? _); [apply length_insert | done].
Qed.

Lemma lookup_fill_cells_other (l : list (Z * Z)) k : forall result,
  (forall p, p ∈ l -> 0 <= p.1) ->
  (forall c, (Z.of_nat k, c) ∉ l) ->
  foldl (fill_cell max_group_id) result l !! k = result !! k.
Proof.
  induction l as [|[g c] l IH]; intros result Hl Hk; [done|].
  cbn [foldl]. rewrite IH.
  - unfold fill_cell. cbn. destruct (_ <=? _); [|done].
    apply list_lookup_insert_ne. intros <-.
    pose proof (Hl (g, c) ltac:(left)) as Hg. cbn in Hg.
    apply (Hk c). rewrite Z2Nat.id by done. left.
  - intros; apply Hl; by right.
  - intros c' Hin. apply (Hk c'). by right.
Qed.

Lemma lookup_fill_cells (l : list (Z * Z)) k c : forall result,
  (forall p, p ∈ l -> 0 <= p.1) ->
  NoDup l.*1 ->
  (Z.of_nat k, c) ∈ l ->
  Z.of_nat k <= max_group_id ->
  (k < length result)%nat ->
  foldl (fill_cell max_group_id) result l !! k = Some (Double.of_int c).
Proof.
  induction l as [|[g c'] l IH]; intros result Hl Hdup Hin Hk Hlen.
  - by apply elem_of_nil in Hin.
  - cbn [foldl]. cbn in Hdup. apply NoDup_cons in Hdup as [Hg Hdup].
    assert (Hl' : forall p, p ∈ l -> 0 <= p.1) by (intros; apply Hl; by right).
    apply elem_of_cons in Hin as [[= <- <-]|Hin].
    + rewrite lookup_fill_cells_other; [|done|].
      * unfold fill_cell. cbn. destruct (Z.leb_spec (Z.of_nat k) max_group_id); [|lia].
        rewrite Nat2Z.id. by apply list_lookup_insert_eq.
      * intros c' Hc'. apply Hg. apply list_elem_of_fmap. by exists (Z.of_nat k, c').
    + apply IH; try done. unfold fill_cell.
      destruct (_ <=? _); [by rewrite length_insert | done].
Qed.

End MapToVector.

Section Entries.

Variable occurrences : gmap Z Z.

Lemma entries_Permutation : entries occurrences ≡ₚ map_to_list occurrences.
Proof. apply merge_sort_Permutation. Qed.

Lemma elem_of_entries g c : (g, c) ∈ entries occurrences <-> occurrences !! g = Some c.
Proof. rewrite entries_Permutation. apply elem_of_map_to_list. Qed.

Lemma NoDup_entries : NoDup (entries occurrences).*1.
Proof. rewrite entries_Permutation. apply NoDup_fst_map_to_list. Qed.

End Entries.

Lemma map_to_vector_profile (occurrences : gmap Z Z) (max_group_id : Z) :
  0 <= max_group_id < Int.max_int ->
  (forall g, is_Some (occurrences !! g) -> 0 <= g) ->
  map_to_vector occurrences max_group_id = Ret (profile occurrences max_group_id).
Proof.
  intros Hmax Hkeys. unfold map_to_vector, Int.add.
  rewrite wrap_small by (unfold Int.in_range, Int.min_int, Int.max_int in *; lia).
  destruct (Z.ltb_spec (max_group_id + 1) 0); [lia|].
  assert (Hnonneg : forall p, p ∈ entries occurrences -> 0 <= p.1).
  { intros [g c] Hp. apply Hkeys. exists c. by apply elem_of_entries. }
  rewrite fill_loop_pure by done. f_equal.
  set (n := Z.to_nat (max_group_id + 1)).
  apply list_eq_same_length with n.
  { unfold profile. by rewrite length_fmap, length_seq. }
  { by rewrite length_fill_cells, length_replicate. }
  intros k x y Hk Hx Hy.
  unfold profile in Hy. rewrite list_lookup_fmap, lookup_seq_lt in Hy by done.
  cbn in Hy. destruct (occurrences !! Z.of_nat k) as [c|] eqn:Hocc.
  - rewrite (lookup_fill_cells _ _ k c) in Hx; try done.
    + congruence.
    + apply NoDup_entries.
    + by apply elem_of_entries.
    + lia.
    + by rewrite length_replicate.
  - rewrite lookup_fill_cells_other in Hx; try done.
    + rewrite lookup_replicate_2 in Hx by done. congruence.
    + intros c Hc. apply elem_of_entries in Hc. congruence.
Qed.

Lemma length_profile occurrences max_group_id :
  0 <= max_group_id ->
  Z.of_nat (length (profile occurrences max_group_id)) = max_group_id + 1.
Proof. intros. unfold profile. rewrite length_fmap, length_seq. lia. Qed.

Lemma profile_drops_larger occurrences max_group_id g count :
  max_group_id < g ->
  profile (<[g := count]> occurrences) max_group_id = profile occurrences max_group_id.
Proof.
  intros Hg. unfold profile. apply list_fmap_ext. intros i k Hk.
  apply lookup_seq in Hk as [-> Hk]. rewrite lookup_insert_ne; [done|lia].
Qed.

Lemma trailing_same_length (v1 v2 : list float) :
  length v1 = length v2 -> trailing v1 v2 = NoTail.
Proof.
  intros Hlen. unfold trailing. rewrite Hlen, Nat.min_id.
  by rewrite Nat.ltb_irrefl.
Qed.

Lemma lookup_foldl_insert `{Countable K} {V} (f : K -> V) (l : list K) (k : K) :
  forall m : gmap K V,
    foldl (fun (m : gmap K V) k => <[k := f k]> m) m l !! k
    = if decide (k ∈ l) then Some (f k) else m !! k.
Proof.
  induction l as [|x l IH] using rev_ind; intros m.
  - cbn. by rewrite decide_False by apply not_elem_of_nil.
  - rewrite foldl_app. cbn [foldl]. destruct (decide (x = k)) as [->|Hne].
    + rewrite lookup_insert_eq. rewrite decide_True; [done|].
      apply elem_of_app. right. by left.
    + rewrite lookup_insert_ne by done. rewrite IH.
      destruct (decide (k ∈ l)) as [Hin|Hnin].
      * rewrite decide_True; [done|]. apply elem_of_app. by left.
      * rewrite decide_False; [done|]. rewrite elem_of_app, list_elem_of_singleton.
        intros [?|?]; done.
Qed.

Section SharedFacts.

Variable db : sqlite3.
Hypothesis Hwf : well_formed_groups db.

Lemma get_group_occurrences_keys score_id feature_type g :
  is_Some (get_group_occurrences db score_id feature_type !! g) ->
  g ∈ segment_group_rows db score_id feature_type.
Proof.
  unfold get_group_occurrences. destruct (prepares db _); cbn [negb].
  2:{ rewrite lookup_empty. by intros [? ?]. }
  induction (segment_group_rows db score_id feature_type) as [|x l IH] using rev_ind.
  - cbn. rewrite lookup_empty. by intros [? ?].
  - rewrite foldl_app. cbn [foldl]. destruct (decide (x = g)) as [->|Hne].
    + intros _. apply elem_of_app. right. by left.
    + rewrite lookup_insert_ne by done. intros Hin.
      apply elem_of_app. left. by apply IH.
Qed.

Lemma get_max_group_id_bounds feature_type :
  0 <= get_max_group_id db feature_type < Int.max_int.
Proof.
  unfold get_max_group_id. destruct (prepares db _); cbn [negb].
  2:{ unfold Int.max_int. lia. }
  destruct (max_group_id_row db feature_type) as [g|] eqn:Hrow.
  - by apply (proj2 Hwf feature_type).
  - unfold Int.max_int. lia.
Qed.

Lemma max_group_ids_bounds feature_type :
  0 <= map_at (max_group_ids db) feature_type < Int.max_int.
Proof.
  unfold map_at, max_group_ids.
  rewrite (lookup_foldl_insert (get_max_group_id db)).
  destruct (decide _); cbn.
  - apply get_max_group_id_bounds.
  - rewrite lookup_empty. cbn. unfold Int.max_int. lia.
Qed.

Lemma lookup_cached_occurrences scores score_id feature_type :
  cached_occurrences db scores !! (score_id, feature_type)
  = if decide (score_id ∈ scores /\ feature_type ∈ feature_types)
    then Some (get_group_occurrences db score_id feature_type)
    else None.
Proof.
  unfold cached_occurrences.
  induction scores as [|s scores IH] using rev_ind.
  - cbn. rewrite lookup_empty. rewrite decide_False; [done|].
    intros [[]%not_elem_of_nil _].
  - rewrite foldl_app. cbn [foldl].
    set (inner := foldl _ _ scores) in *.
    assert (Hrow : forall (l : list string) (m : gmap (Z * string) (gmap Z Z)),
      foldl (fun (cache : gmap (Z * string) (gmap Z Z)) ft =>
               <[(s, ft) := get_group_occurrences db s ft]> cache) m l
        !! (score_id, feature_type)
      = if decide (score_id = s /\ feature_type ∈ l)
        then Some (get_group_occurrences db score_id feature_type)
        else m !! (score_id, feature_type)).
    { clear. induction l as [|x l IHl] using rev_ind; intros m.
      - cbn. rewrite decide_False; [done|]. intros [_ []%not_elem_of_nil].
      - rewrite foldl_app. cbn [foldl].
        destruct (decide ((s, x) = (score_id, feature_type))) as [[= -> ->]|Hne].
        + rewrite lookup_insert_eq, decide_True; [done|].
          split; [done|]. apply elem_of_app. right. by left.
        + rewrite lookup_insert_ne by done. rewrite IHl.
          destruct (decide (score_id = s /\ feature_type ∈ l)) as [[-> Hin]|Hnin].
          * rewrite decide_True; [done|]. split; [done|]. apply elem_of_app. by left.
          * rewrite decide_False; [done|]. intros [-> Hin].
            apply elem_of_app in Hin as [Hin|Hin%list_elem_of_singleton];
              [naive_solver|congruence]. }
    rewrite Hrow, IH.
    destruct (decide (score_id = s /\ feature_type ∈ feature_types)) as [[-> Hft]|Hns].
    + rewrite decide_True; [done|]. split; [|done]. apply elem_of_app. right. by left.
    + destruct (decide (score_id ∈ scores /\ feature_type ∈ feature_types))
        as [[Hs Hft]|Hn].
      * rewrite decide_True; [done|]. split; [|done]. apply elem_of_app. by left.
      * rewrite decide_False; [done|]. intros [Hs Hft].
        apply elem_of_app in Hs as [Hs|Hs%list_elem_of_singleton]; naive_solver.
Qed.

Lemma cache_at_keys scores k g :
  is_Some (cache_at (cached_occurrences db scores) k !! g) -> 0 <= g.
Proof.
  destruct k as [score_id feature_type]. unfold cache_at.
  rewrite lookup_cached_occurrences. destruct (decide _); cbn.
  - intros Hg%get_group_occurrences_keys. by apply (proj1 Hwf) in Hg.
  - rewrite lookup_empty. by intros [? ?].
Qed.

Lemma profiles_returns scores s_i s_j feature_type :
  let cache := cached_occurrences db scores in
  let max_group_id := map_at (max_group_ids db) feature_type in
  profiles db cache s_i s_j feature_type
  = Ret (profile (cache_at cache (s_i, feature_type)) max_group_id,
         profile (cache_at cache (s_j, feature_type)) max_group_id).
Proof.
  cbn zeta. unfold profiles.
  rewrite !map_to_vector_profile; try done.
  all: first [ apply max_group_ids_bounds
             | intros g Hg; by apply cache_at_keys in Hg ].
Qed.

Lemma shared_compare_returns level scores s_i s_j :
  let cache := cached_occurrences db scores in
  shared_compare db level cache s_i s_j = Ret (shared_record db level cache s_i s_j).
Proof.
  cbn zeta. unfold shared_compare, feature_types, feature_body.
  cbn [foldlM]. rewrite !profiles_returns. reflexivity.
Qed.

End SharedFacts.



Lemma process_alignments_batches db data is_segment level :
  exists batches,
    process_alignments db data is_segment level
    = Ret (save_batches is_segment db batches)
    /\ concat batches = pair_records (align_pair level) data
    /\ Forall (fun b => (0 < length b <= BATCH_SIZE)%nat) batches.
Proof.
  unfold process_alignments.
  apply (pair_loop_batches _ (align_pair level)). done.
Qed.

Lemma process_shared_segments_alignments_batches db level :
  well_formed_groups db ->
  exists batches,
    process_shared_segments_alignments db level
    = Ret (save_batches false db batches)
    /\ concat batches
       = pair_records
           (shared_record db level (cached_occurrences db (get_all_score_ids db)))
           (get_all_score_ids db)
    /\ Forall (fun b => (0 < length b <= BATCH_SIZE)%nat) batches.
Proof.
  intros Hwf. unfold process_shared_segments_alignments.
  apply (pair_loop_batches _
           (shared_record db level (cached_occurrences db (get_all_score_ids db)))).
  intros i j _. by apply shared_compare_returns.
Qed.


Lemma sample_db_well_formed : well_formed_groups sample_db.
Proof.
  split.
  - intros score_id feature_type g. cbn.
    destruct (score_id =? 1); [|destruct (score_id =? 2)];
      rewrite ?elem_of_cons, ?elem_of_nil; intros H; lia.
  - intros feature_type g [= <-]. unfold Int.max_int. lia.
Qed.


Lemma fill_loop_length max_group_id (l : list (Z * Z)) : forall r v,
  foldl (fill max_group_id) r l = Ret v ->
  exists v0, r = Ret v0 /\ length v = length v0.
Proof.
  induction l as [|[g c] l IH]; intros r v Hrun.
  - cbn in Hrun. subst r. by exists v.
  - cbn [foldl] in Hrun. apply IH in Hrun as (v1 & Hstep & Hlen).
    destruct r as [v0| |]; try discriminate Hstep.
    exists v0. split; [done|]. cbn in Hstep.
    destruct (g <=? max_group_id); [|congruence].
    destruct (g <? 0); [discriminate|]. injection Hstep as <-.
    by rewrite Hlen, length_insert.
Qed.

Lemma map_to_vector_length occurrences max_group_id v :
  map_to_vector occurrences max_group_id = Ret v ->
  Z.of_nat (length v) = Int.add max_group_id 1.
Proof.
  unfold map_to_vector. destruct (Z.ltb_spec (Int.add max_group_id 1) 0); [done|].
  intros (v0 & [= <-] & ->)%fill_loop_length. rewrite length_replicate. lia.
Qed.

(** Claim C9.  For each feature type, the two profiles the sweep hands to
    [euclidean_distance] are built with the same corpus-wide
    [max_group_id]: they have the same length, [max_group_id + 1], and
    neither trailing loop of [euclidean_distance] runs.  A group id above
    [max_group_id] leaves the profile unchanged. *)
Theorem shared_profiles_same_length db s_i s_j feature_type :
  let cache := cached_occurrences db (get_all_score_ids db) in
  let max_group_id := map_at (max_group_ids db) feature_type in
  (forall vector1 vector2,
      profiles db cache s_i s_j feature_type = Ret (vector1, vector2) ->
      Z.of_nat (length vector1) = Int.add max_group_id 1
      /\ length vector2 = length vector1
      /\ trailing vector1 vector2 = NoTail)
  /\ (well_formed_groups db ->
      (exists vector1 vector2,
          profiles db cache s_i s_j feature_type = Ret (vector1, vector2)
          /\ Z.of_nat (length vector1) = max_group_id + 1
          /\ Z.of_nat (length vector2) = max_group_id + 1
          /\ trailing vector1 vector2 = NoTail)
      /\ (forall (occurrences : gmap Z Z) g count,
            (forall k, is_Some (occurrences !! k) -> 0 <= k) ->
            max_group_id < g ->
            map_to_vector (<[g := count]> occurrences) max_group_id
            = map_to_vector occurrences max_group_id)).
Proof.
  intros cache max_group_id. split.
  - intros vector1 vector2. unfold profiles. fold max_group_id.
    destruct (map_to_vector (cache_at cache (s_i, feature_type)) max_group_id)
      as [v1| |] eqn:H1; try discriminate.
    destruct (map_to_vector (cache_at cache (s_j, feature_type)) max_group_id)
      as [v2| |] eqn:H2; try discriminate.
    cbn. intros [= <- <-].
    apply map_to_vector_length in H1, H2.
    assert (length v2 = length v1) by lia.
    split_and!; [done..|]. by apply trailing_same_length.
  - intros Hwf.
    pose proof (max_group_ids_bounds db Hwf feature_type) as Hmax.
    fold max_group_id in Hmax. split.
    + pose proof (length_profile (cache_at cache (s_i, feature_type)) max_group_id
                    ltac:(lia)) as H1.
      pose proof (length_profile (cache_at cache (s_j, feature_type)) max_group_id
                    ltac:(lia)) as H2.
      exists (profile (cache_at cache (s_i, feature_type)) max_group_id),
             (profile (cache_at cache (s_j, feature_type)) max_group_id).
      split_and!; [by apply profiles_returns | done | done |].
      apply trailing_same_length. lia.
    + intros occurrences g count Hkeys Hg.
      rewrite !map_to_vector_profile; try done.
      * by rewrite profile_drops_larger.
      * intros k. destruct (decide (k = g)) as [->|Hne]; [lia|].
        rewrite lookup_insert_ne by done. apply Hkeys.
Qed.

Lemma shared_profiles_same_length_witness :
  exists vector1 vector2,
    profiles sample_db (cached_occurrences sample_db (get_all_score_ids sample_db))
      1 2 "diatonic" = Ret (vector1, vector2)
    /\ Z.of_nat (length vector1) = 3
    /\ Z.of_nat (length vector2) = 3
    /\ trailing vector1 vector2 = NoTail.
Proof.
  exact (proj1 (proj2 (shared_profiles_same_length sample_db 1 2 "diatonic"%string)
                  sample_db_well_formed)).
Defined.

Lemma foldl_ext_in {A B} (f g : A -> B -> A) (l : list B) : forall a,
  (forall a x, x ∈ l -> f a x = g a x) -> foldl f a l = foldl g a l.
Proof.
  induction l as [|x l IH]; intros a Hfg; [done|].
  cbn [foldl]. rewrite Hfg by left. apply IH. intros; apply Hfg; by right.
Qed.

Lemma foldl_indices {A B} `{!Inhabited B} (f : A -> B -> A) (l : list B) : forall a,
  foldl (fun s i => f s (l !!! i)) a (seq 0 (length l)) = foldl f a l.
Proof.
  induction l as [|x l IH] using rev_ind; intros a; [done|].
  rewrite length_app, Nat.add_1_r, seq_S, !foldl_app. cbn [foldl Nat.add].
  rewrite lookup_total_app_r, Nat.sub_diag by done. cbn. f_equal.
  rewrite <- IH. apply foldl_ext_in. intros s i Hi%elem_of_seq.
  by rewrite lookup_total_app_l by lia.
Qed.

Section Euclidean.

Variables v1 v2 : list float.

Lemma overlap_loop acc :
  foldl (sq_diff_step v1 v2) acc (seq 0 (length v1 `min` length v2))
  = sum_sq_diffs acc (zip v1 v2).
Proof.
  unfold sum_sq_diffs.
  rewrite <- (foldl_indices _ (zip v1 v2)), length_zip.
  apply foldl_ext_in. intros s i Hi%elem_of_seq. unfold sq_diff_step.
  destruct (lookup_lt_is_Some_2 v1 i ltac:(lia)) as [x Hx].
  destruct (lookup_lt_is_Some_2 v2 i ltac:(lia)) as [y Hy].
  assert (Hxy : zip v1 v2 !! i = Some (x, y)).
  { by apply lookup_zip_Some. }
  by rewrite (list_lookup_total_correct v1 i x Hx),
    (list_lookup_total_correct v2 i y Hy),
    (list_lookup_total_correct (zip v1 v2) i (x, y) Hxy).
Qed.

Lemma trailing_loop (v : list float) n acc :
  foldl (sq_step v) acc (seq n (length v - n)) = sum_sqs acc (drop n v).
Proof.
  unfold sum_sqs.
  rewrite <- (foldl_indices _ (drop n v)), length_drop.
  replace (seq n (length v - n))
    with ((fun i => n + i)%nat <$> seq 0 (length v - n))
    by (rewrite fmap_add_seq; f_equal; lia).
  rewrite foldl_fmap.
  apply foldl_ext_in. intros s i _. unfold sq_step.
  by rewrite lookup_total_drop.
Qed.

Lemma euclidean_distance_padded :
  euclidean_distance v1 v2 = padded_distance v1 v2.
Proof.
  unfold euclidean_distance, padded_distance, trailing. f_equal.
  rewrite overlap_loop.
  destruct (Nat.ltb_spec (length v1 `min` length v2) (length v1)) as [H1|H1].
  - rewrite trailing_loop.
    replace (length v1 `min` length v2)%nat with (length v2) by lia.
    rewrite (drop_ge v2) by lia. by rewrite app_nil_r.
  - rewrite (drop_ge v1) by lia. cbn [app].
    destruct (Nat.ltb_spec (length v1 `min` length v2) (length v2)) as [H2|H2].
    + rewrite trailing_loop.
      by replace (length v1 `min` length v2)%nat with (length v1) by lia.
    + by rewrite (drop_ge v2) by lia.
Qed.

End Euclidean.

Lemma sub_zero_r (x : float) : (x - 0)%float = x.
Proof.
  apply Prim2SF_inj. rewrite sub_spec.
  change (Prim2SF 0) with (SpecFloat.S754_zero false).
  by destruct (Prim2SF x) as [[]|[]| |].
Qed.

Lemma sq_zero_sub (y : float) : ((0 - y) * (0 - y))%float = (y * y)%float.
Proof.
  apply Prim2SF_inj. rewrite !mul_spec, sub_spec.
  change (Prim2SF 0) with (SpecFloat.S754_zero false).
  by destruct (Prim2SF y) as [[]|[]| |[] m e].
Qed.

Lemma sum_sqs_pad_r (l : list float) : forall acc,
  sum_sqs acc l = sum_sq_diffs acc (zip l (replicate (length l) 0%float)).
Proof.
  induction l as [|x l IH]; intros acc; [done|].
  cbn. rewrite sub_zero_r. apply IH.
Qed.

Lemma sum_sqs_pad_l (l : list float) : forall acc,
  sum_sqs acc l = sum_sq_diffs acc (zip (replicate (length l) 0%float) l).
Proof.
  induction l as [|y l IH]; intros acc; [done|].
  cbn. rewrite sq_zero_sub. apply IH.
Qed.

Lemma padded_sums (v1 : list float) : forall v2 acc,
  sum_sqs (sum_sq_diffs acc (zip v1 v2))
          (drop (length v2) v1 ++ drop (length v1) v2)
  = sum_sq_diffs acc
      (zip (resize (length v1 `max` length v2) 0%float v1)
           (resize (length v1 `max` length v2) 0%float v2)).
Proof.
  induction v1 as [|x v1 IH]; intros [|y v2] acc.
  - done.
  - change (length [] `max` length (y :: v2))%nat with (length (y :: v2)).
    rewrite resize_nil, resize_all. apply (sum_sqs_pad_l (y :: v2)).
  - change (length (x :: v1) `max` length [])%nat with (length (x :: v1)).
    rewrite resize_nil, resize_all. cbn [length drop]. rewrite app_nil_r.
    apply (sum_sqs_pad_r (x :: v1)).
  - cbn [length drop Nat.max resize zip_with]. apply IH.
Qed.

Lemma padded_distance_zero_padded v1 v2 :
  padded_distance v1 v2 = zero_padded_distance v1 v2.
Proof.
  unfold padded_distance, zero_padded_distance. f_equal. apply padded_sums.
Qed.

(** Claim C6.  For vectors of any two lengths, [euclidean_distance] is the
    square root of the sum of the squared differences over the
    overlapping prefix plus the squares of the trailing elements of the
    longer vector, which is the distance of the two vectors once the
    shorter is padded with zeros; the distance of [1, 2] and [1, 2, 3]
    is 3. *)
Theorem euclidean_distance_zero_padding :
  (forall v1 v2,
      euclidean_distance v1 v2 = padded_distance v1 v2
      /\ euclidean_distance v1 v2 = zero_padded_distance v1 v2)
  /\ euclidean_distance [1; 2]%float [1; 2; 3]%float = 3%float.
Proof.
  split; [|by vm_compute]. intros v1 v2.
  rewrite euclidean_distance_padded. split; [done|].
  apply padded_distance_zero_padded.
Qed.

Lemma stoi_cases str :
  (exists n, stoi str = Ret n /\ Int.in_range n)
  \/ stoi str = Throw invalid_argument
  \/ stoi str = Throw out_of_range.
Proof.
  unfold stoi.
  destruct (match skip_spaces str with
            | String "-" s' => (true, s')
            | String "+" s' => (false, s')
            | _ => (false, skip_spaces str)
            end) as [negative s].
  destruct (digits None s) as [v|]; [|by right; left].
  destruct (_ && _) eqn:Hrange; [|by right; right].
  left. eexists. split; [done|].
  apply andb_prop in Hrange as [H1%Z.leb_le H2%Z.leb_le]. done.
Qed.

Lemma read_until_length delim s :
  (String.length (read_until delim s).2 <= String.length s)%nat.
Proof.
  induction s as [|c s IH]; cbn; [done|].
  destruct (Ascii.eqb c delim); cbn; [lia|].
  destruct (read_until delim s) as [value rest]. cbn in *. lia.
Qed.

Lemma read_until_fields s :
  let '(value, rest) := read_until ";" s in
  (fields s = [value] /\ rest = EmptyString) \/ fields s = value :: fields rest.
Proof.
  induction s as [|c s IH]; cbn; [by left|].
  destruct (Ascii.eqb c ";"); [by right|].
  destruct (read_until ";" s) as [value rest].
  destruct IH as [[-> ->] | ->]; [by left | by right].
Qed.

Lemma tokens_empty : tokens EmptyString = [].
Proof. reflexivity. Qed.

Lemma read_until_tokens s :
  let '(value, rest) := read_until ";" s in
  tokens s = (if decide (value = EmptyString) then [] else [value]) ++ tokens rest.
Proof.
  pose proof (read_until_fields s) as H.
  destruct (read_until ";" s) as [value rest]. unfold tokens.
  destruct H as [[-> ->] | ->].
  - cbn [fields]. rewrite !filter_cons, filter_nil.
    destruct (decide (value = EmptyString)) as [->|Hne].
    + by rewrite !decide_False by (by intros ?).
    + rewrite decide_True by done. by rewrite decide_False by (by intros ?).
  - rewrite filter_cons. destruct (decide (value = EmptyString)) as [->|Hne].
    + by rewrite decide_False by (by intros ?).
    + by rewrite decide_True by done.
Qed.

Lemma convert_loop_tokens fuel : forall ss result cerr,
  (String.length ss < fuel)%nat ->
  convert_loop fuel ss result cerr
  = Some (Ret (result ++ (element <$> tokens ss), cerr ++ (tokens ss ≫= diagnostic))).
Proof.
  induction fuel as [|fuel IH]; intros ss result cerr Hfuel; [lia|].
  cbn [convert_loop]. destruct ss as [|c ss'].
  { cbn. by rewrite !app_nil_r. }
  set (ss := String c ss') in *.
  assert (Hget : getline ss ";" = Some (read_until ";" ss)) by done.
  rewrite Hget. clear Hget.
  pose proof (read_until_tokens ss) as Htok.
  pose proof (read_until_length ";" ss) as Hlen.
  assert (Hshort : (String.length (read_until ";" ss).2 < String.length ss)%nat).
  { subst ss. cbn. destruct (Ascii.eqb c ";"); cbn; [lia|].
    pose proof (read_until_length ";" ss') as H.
    destruct (read_until ";" ss'); cbn in *. lia. }
  destruct (read_until ";" ss) as [value rest]. cbn [snd] in *. rewrite Htok.
  destruct (decide (value = EmptyString)) as [->|Hne].
  { cbn [app]. apply IH. lia. }
  unfold element at 1, diagnostic at 1.
  cbn [fmap list_fmap app mbind list_bind].
  destruct (decide (value = "r"%string)) as [->|Hr].
  { rewrite IH by lia. cbn. by rewrite <- !app_assoc. }
  destruct (stoi_cases value) as [(n & -> & _)|[-> | ->]].
  all: rewrite IH by lia; cbn; by rewrite <- !app_assoc.
Qed.

Lemma convert_feature_to_vector_tokens feature :
  convert_feature_to_vector feature
  = Ret (element <$> tokens feature, tokens feature ≫= diagnostic).
Proof.
  unfold convert_feature_to_vector. by rewrite convert_loop_tokens by lia.
Qed.

(** Claim C8.  [convert_feature_to_vector] returns for every input string
    and never throws: its loop ends within the fuel, the result holds one
    element per non-empty field, the rest token and every token [stoi]
    rejects (with [invalid_argument] or [out_of_range]) become absent, each
    rejected token adds one line naming it to [cerr], and the empty string
    gives the empty sequence. *)
Theorem convert_feature_to_vector_total feature :
  convert_loop (S (String.length feature)) feature [] []
  = Some (convert_feature_to_vector feature)
  /\ convert_feature_to_vector feature
     = Ret (element <$> tokens feature, tokens feature ≫= diagnostic)
  /\ (forall token, token ∈ tokens feature ->
        (token = "r"%string -> element token = None /\ diagnostic token = [])
        /\ (forall e, stoi token = Throw e -> token <> "r"%string ->
              element token = None
              /\ (e = invalid_argument \/ e = out_of_range)
              /\ exists line, diagnostic token = [line]
                              /\ exists prefix, line = (prefix ++ token)%string))
  /\ convert_feature_to_vector EmptyString = Ret ([], []).
Proof.
  split_and!.
  - rewrite convert_feature_to_vector_tokens. apply convert_loop_tokens. lia.
  - apply convert_feature_to_vector_tokens.
  - intros token _. split.
    + intros ->. done.
    + intros e He Hr. unfold element, diagnostic.
      rewrite !decide_False by done. rewrite He.
      destruct (stoi_cases token) as [(n & Hn & _)|[Hn | Hn]]; [congruence| |].
      all: rewrite Hn in He; injection He as <-.
      all: split_and!; [done | auto | eexists; split; [done|by eexists]].
  - reflexivity.
Qed.

Lemma foldlM_returns {A B} (f : A -> B -> outcome A) (l : list B) : forall a,
  (forall a x, exists a', f a x = Ret a') -> exists a', foldlM f a l = Ret a'.
Proof.
  induction l as [|x l IH]; intros a Hf; cbn; [by eexists|].
  destruct (Hf a x) as [a' ->]. cbn. by apply IH.
Qed.

Lemma convert_column_returns text :
  convert_column text = Ret (element <$> tokens (default EmptyString text)).
Proof. unfold convert_column. by rewrite convert_feature_to_vector_tokens. Qed.

Lemma load_row_returns db is_structure data row :
  exists data', load_row db is_structure data row = Ret data'.
Proof.
  unfold load_row. destruct is_structure; [by eexists|].
  rewrite !convert_column_returns. cbn. by eexists.
Qed.

Lemma get_feature_data_returns db is_segment is_structure :
  exists data, get_feature_data db is_segment is_structure = Ret data.
Proof.
  unfold get_feature_data. destruct (prepares db _); cbn [negb]; [|by eexists].
  apply foldlM_returns. intros; apply load_row_returns.
Qed.

Lemma process_alignments_returns db data is_segment level :
  exists db', process_alignments db data is_segment level = Ret db'.
Proof.
  destruct (process_alignments_batches db data is_segment level) as (bs & -> & _).
  by eexists.
Qed.

Lemma main_score_mode prog type_arg level opened :
  type_arg <> "--type=segment"%string ->
  level ∈ ["note"; "structure"; "shared_segments"]%string ->
  main [prog; type_arg; "--level"; level]%string opened
  = match opened with
    | None => Ret (1, None)
    | Some db => score_sweep db level
    end.
Proof.
  intros Htype Hlevel. unfold main, score_sweep.
  cbn [length Nat.ltb Nat.leb Nat.eqb negb orb].
  change ([prog; type_arg; "--level"%string; level] !!! 1%nat) with type_arg.
  change ([prog; type_arg; "--level"%string; level] !!! 2%nat) with "--level"%string.
  change ([prog; type_arg; "--level"%string; level] !!! 3%nat) with level.
  rewrite (bool_decide_eq_false_2 _ Htype).
  rewrite (bool_decide_eq_true_2 ("--level"%string = "--level"%string)) by done.
  cbn [negb orb andb].
  assert (Hvalid : bool_decide (level ≠ "note"%string)
                   && bool_decide (level ≠ "structure"%string)
                   && bool_decide (level ≠ "shared_segments"%string) = false).
  { rewrite !elem_of_cons, elem_of_nil in Hlevel.
    destruct Hlevel as [-> | [-> | [-> | []]]]; reflexivity. }
  rewrite Hvalid. done.
Qed.

(** Claim C10.  [main] takes every first argument other than
    [--type=segment] as score mode: with a valid [--level] the run is the
    one of [--type=score], a full score-level sweep that exits with status
    0 (for the shared-segments level, given group ids that are valid
    indices), not a rejection. *)
Theorem main_unrecognized_type_runs_score_sweep prog type_arg level db :
  type_arg <> "--type=segment"%string ->
  level ∈ ["note"; "structure"; "shared_segments"]%string ->
  main [prog; type_arg; "--level"; level]%string (Some db)
  = main [prog; "--type=score"; "--level"; level]%string (Some db)
  /\ main [prog; type_arg; "--level"; level]%string (Some db) = score_sweep db level
  /\ (level <> "shared_segments"%string \/ well_formed_groups db ->
      exists db',
        main [prog; type_arg; "--level"; level]%string (Some db) = Ret (0, Some db')).
Proof.
  intros Htype Hlevel.
  rewrite (main_score_mode prog type_arg level (Some db) Htype Hlevel).
  rewrite (main_score_mode prog "--type=score" level (Some db)) by done.
  split_and!; [done..|].
  intros Hok. unfold score_sweep. case_bool_decide as Hshared.
  - destruct Hok as [Hne|Hwf]; [done|].
    destruct (process_shared_segments_alignments_batches db level Hwf) as (bs & -> & _).
    by eexists.
  - destruct (get_feature_data_returns db false (bool_decide (level = "structure"%string)))
      as [data ->]. cbn [mbind outcome_bind].
    destruct (process_alignments_returns db data false level) as [db' ->].
    by eexists.
Qed.

Lemma main_unrecognized_type_witness :
  main ["compute_features_alignment"; "--type=banana"; "--level"; "note"]%string
       (Some sample_db)
  = score_sweep sample_db "note".
Proof.
  refine (proj1 (proj2 (main_unrecognized_type_runs_score_sweep
            "compute_features_alignment" "--type=banana" "note" sample_db _ _))).
  - discriminate.
  - apply list_elem_of_here.
Defined.

(** ** Worked examples *)

(** Two rests at the same position align as a match. *)
Example rests_match :
  global_alignment [None; Some 3] [None; Some 3] 0 1 1 = 0.
Proof. reflexivity. Qed.

(** A rest against a value is a mismatch. *)
Example rest_against_value :
  global_alignment [None; Some 3] [Some 5; Some 3] 0 1 1 = 1.
Proof. reflexivity. Qed.

(** A misspelt type with level note on the sample store: three rows, with
    the diatonic distances of the features [1], [1] and [2]. *)
Example sample_run_note :
  match main ["compute_features_alignment"; "--type=scores"; "--level"; "note"]%string
             (Some sample_db) with
  | Ret (status, Some db) =>
      Some (status,
            (fun r => (row_id_1 r, row_id_2 r, row_diatonic_score r))
              <$> ScoreAlignment db)
  | _ => None
  end
  = Some (0, [(1, 2, 0); (1, 3, 1); (2, 3, 1)]).
Proof. vm_compute. reflexivity. Qed.

(** The shared-segments level on the sample store: the profiles are
    [1, 1, 0], [0, 2, 1] and [0, 0, 1]. *)
Example sample_run_shared_segments :
  match main ["compute_features_alignment"; "--type=score"; "--level";
              "shared_segments"]%string (Some sample_db) with
  | Ret (status, Some db) =>
      Some (status,
            (fun r => (row_id_1 r, row_id_2 r, row_diatonic_score r))
              <$> ScoreAlignment db)
  | _ => None
  end
  = Some (0, [(1, 2, 173); (1, 3, 173); (2, 3, 200)]).
Proof. vm_compute. reflexivity. Qed.

(** A malformed token and an out-of-range token become absent, each with
    its line on [cerr]; trailing text after digits is ignored by [stoi]. *)
Example convert_sample :
  convert_feature_to_vector "1;r;-3;;abc;12x;99999999999;"
  = Ret ([Some 1; None; Some (-3); None; Some 12; None],
         ["Invalid value in feature: abc"; "Value out of range: 99999999999"]%string).
Proof. vm_compute. reflexivity. Qed.

(** ** The cost matrix without overflow *)

Lemma pairScore_range (u v : option Z) m x :
  0 <= m -> 0 <= x -> 0 <= pairScore u v m x <= Z.max m x.
Proof.
  intros Hm Hx. destruct u as [u|], v as [v|]; cbn; try lia.
  destruct (u =? v); lia.
Qed.

Lemma pairScore_match (u v : option Z) x :
  0 < x -> (pairScore u v 0 x = 0 <-> u = v).
Proof.
  intros Hx. destruct u as [u|], v as [v|]; cbn; try (split; (lia || done)).
  destruct (Z.eqb_spec u v) as [->|Hne]; split; try done; try lia.
  intros [= ->]. done.
Qed.

Section ExactCosts.

Variables a b : list (option Z).
Variables m x g : Z.
Hypothesis Hm : 0 <= m.
Hypothesis Hx : 0 <= x.
Hypothesis Hg : 0 <= g.
Hypothesis Hfit :
  Z.of_nat (length a + length b) * g + Z.max m x <= Int.max_int.

#[local] Abbreviation cost := (cost a b m x g).

Lemma cost_row_0_exact j :
  (j <= length b)%nat -> cost 0 j = Z.of_nat j * g.
Proof.
  intros Hj. rewrite cost_row_0. unfold Int.mul. apply wrap_small.
  unfold Int.in_range, Int.min_int. nia.
Qed.

Lemma cost_col_0_exact i :
  (i <= length a)%nat -> cost i 0 = Z.of_nat i * g.
Proof.
  intros Hi. rewrite cost_col_0. unfold Int.mul. apply wrap_small.
  unfold Int.in_range, Int.min_int. nia.
Qed.

Lemma cost_step_exact i j :
  (S i <= length a)%nat -> (S j <= length b)%nat ->
  cost (S i) (S j)
  = Z.min (Z.min (cost i j + pairScore (a !!! i) (b !!! j) m x)
                 (cost i (S j) + g))
          (cost (S i) j + g).
Proof.
  intros Hi Hj. rewrite cost_step. unfold min_of_three, Int.add.
  pose proof (cost_bounds a b m x g Hm Hx Hg Hfit i j ltac:(lia) ltac:(lia)).
  pose proof (cost_bounds a b m x g Hm Hx Hg Hfit i (S j) ltac:(lia) ltac:(lia)).
  pose proof (cost_bounds a b m x g Hm Hx Hg Hfit (S i) j ltac:(lia) ltac:(lia)).
  pose proof (pairScore_range (a !!! i) (b !!! j) m x Hm Hx).
  rewrite !wrap_small; [done|unfold Int.in_range, Int.min_int; nia ..].
Qed.

End ExactCosts.

(** The costs with the scores of the driver: match 0, mismatch 1, gap 1. *)
Section EditDistance.

Variables a b : list (option Z).
Hypothesis Hfit : Z.of_nat (length a + length b) < Int.max_int.

#[local] Abbreviation D := (cost a b 0 1 1).

Lemma edit_fit : Z.of_nat (length a + length b) * 1 + Z.max 0 1 <= Int.max_int.
Proof. lia. Qed.

Lemma edit_row_0 j : (j <= length b)%nat -> D 0 j = Z.of_nat j.
Proof.
  intros Hj. rewrite (cost_row_0_exact a b 0 1 1) by (done || lia). lia.
Qed.

Lemma edit_col_0 i : (i <= length a)%nat -> D i 0 = Z.of_nat i.
Proof.
  intros Hi. rewrite (cost_col_0_exact a b 0 1 1) by (done || lia). lia.
Qed.

Lemma edit_step i j :
  (S i <= length a)%nat -> (S j <= length b)%nat ->
  D (S i) (S j)
  = Z.min (Z.min (D i j + pairScore (a !!! i) (b !!! j) 0 1) (D i (S j) + 1))
          (D (S i) j + 1).
Proof. intros. apply cost_step_exact; (done || lia). Qed.

Lemma edit_bounds i j :
  (i <= length a)%nat -> (j <= length b)%nat ->
  Z.abs (Z.of_nat i - Z.of_nat j) <= D i j <= Z.max (Z.of_nat i) (Z.of_nat j).
Proof.
  revert j. induction i as [|i IHi]; intros j Hi Hj.
  - rewrite edit_row_0 by done. lia.
  - induction j as [|j IHj].
    + rewrite edit_col_0 by done. lia.
    + rewrite edit_step by done.
      pose proof (IHi j ltac:(lia) ltac:(lia)).
      pose proof (IHi (S j) ltac:(lia) ltac:(lia)).
      pose proof (IHj ltac:(lia)).
      pose proof (pairScore_range (a !!! i) (b !!! j) 0 1 ltac:(lia) ltac:(lia)).
      lia.
Qed.

(** Moving one column to the right changes a cost by at most one. *)
Lemma edit_right i : forall j,
  (i <= length a)%nat -> (S j <= length b)%nat ->
  D i j - 1 <= D i (S j) <= D i j + 1.
Proof.
  induction i as [|i IHi]; intros j Hi Hj.
  - rewrite !edit_row_0 by lia. lia.
  - assert (Hdown : forall j', (j' <= length b)%nat -> D (S i) j' <= D i j' + 1).
    { intros [|j'] Hj'.
      - rewrite !edit_col_0 by lia. lia.
      - rewrite edit_step by lia. lia. }
    rewrite (edit_step i j) by lia.
    pose proof (IHi j ltac:(lia) ltac:(lia)).
    pose proof (Hdown j ltac:(lia)).
    pose proof (pairScore_range (a !!! i) (b !!! j) 0 1 ltac:(lia) ltac:(lia)).
    lia.
Qed.

End EditDistance.

(** ** The alignment score as an edit distance *)

Lemma cost_prefix (a a' b b' : list (option Z)) m x g i : forall j,
  (i <= length a)%nat -> (j <= length b)%nat ->
  cost (a ++ a') (b ++ b') m x g i j = cost a b m x g i j.
Proof.
  induction i as [|i IHi]; intros j Hi Hj.
  - by rewrite !cost_row_0.
  - induction j as [|j IHj].
    + by rewrite !cost_col_0.
    + rewrite !cost_step, IHi, IHi, IHj by lia.
      by rewrite !lookup_total_app_l by lia.
Qed.

Lemma edit_down (a b : list (option Z)) i j :
  Z.of_nat (length a + length b) < Int.max_int ->
  (S i <= length a)%nat -> (j <= length b)%nat ->
  cost a b 0 1 1 i j - 1 <= cost a b 0 1 1 (S i) j <= cost a b 0 1 1 i j + 1.
Proof.
  intros Hfit Hi Hj. rewrite !(cost_transpose a b).
  apply edit_right; [|done..]. by rewrite Nat.add_comm.
Qed.

Lemma edit_diagonal_zero (a : list (option Z)) x g i :
  0 <= x -> 0 <= g ->
  Z.of_nat (length a + length a) * g + Z.max 0 x <= Int.max_int ->
  (i <= length a)%nat ->
  cost a a 0 x g i i = 0.
Proof.
  intros Hx Hg Hfit. induction i as [|i IH]; intros Hi.
  - rewrite cost_row_0. reflexivity.
  - rewrite cost_step_exact by (done || lia). rewrite IH by lia.
    pose proof (cost_bounds a a 0 x g ltac:(lia) Hx Hg Hfit i (S i) ltac:(lia) ltac:(lia)).
    pose proof (cost_bounds a a 0 x g ltac:(lia) Hx Hg Hfit (S i) i ltac:(lia) ltac:(lia)).
    assert (pairScore (a !!! i) (a !!! i) 0 x = 0) as ->.
    { destruct (a !!! i) as [u|]; cbn; [by rewrite Z.eqb_refl | done]. }
    lia.
Qed.

(** Property X1.  A sequence aligned with itself costs nothing: with a
    match score of 0 and non-negative mismatch and gap scores that keep
    every cell within an int, [global_alignment a a] returns 0. *)
Theorem global_alignment_identity (a : list (option Z)) x g :
  0 <= x -> 0 <= g ->
  Z.of_nat (length a + length a) * g + Z.max 0 x <= Int.max_int ->
  global_alignment a a 0 x g = 0.
Proof.
  intros Hx Hg Hfit. rewrite global_alignment_cost.
  by apply edit_diagonal_zero.
Qed.

Lemma global_alignment_identity_witness :
  global_alignment [Some 2; None; Some 7] [Some 2; None; Some 7] 0 3 2 = 0.
Proof.
  apply (global_alignment_identity [Some 2; None; Some 7] 3 2);
    unfold Int.max_int; cbn; lia.
Defined.

(** Property X2.  With the scores every caller passes (match 0,
    mismatch 1, gap 1) the result lies between the difference of the two
    lengths and the longer of the two lengths. *)
Theorem global_alignment_edit_bounds (a b : list (option Z)) :
  Z.of_nat (length a + length b) < Int.max_int ->
  Z.abs (Z.of_nat (length a) - Z.of_nat (length b))
  <= global_alignment a b 0 1 1
  <= Z.max (Z.of_nat (length a)) (Z.of_nat (length b)).
Proof.
  intros Hfit. rewrite global_alignment_cost. by apply edit_bounds.
Qed.

Lemma global_alignment_edit_bounds_witness :
  Z.abs (Z.of_nat (length [Some 1; None; Some 3]) - Z.of_nat (length [Some 3]))
  <= global_alignment [Some 1; None; Some 3] [Some 3] 0 1 1
  <= Z.max (Z.of_nat (length [Some 1; None; Some 3])) (Z.of_nat (length [Some 3])).
Proof.
  apply (global_alignment_edit_bounds [Some 1; None; Some 3] [Some 3]).
  unfold Int.max_int. cbn. lia.
Defined.

Lemma edit_zero_prefixes (a b : list (option Z)) i :
  Z.of_nat (length a + length b) < Int.max_int ->
  (i <= length a)%nat -> (i <= length b)%nat ->
  cost a b 0 1 1 i i = 0 -> take i a = take i b.
Proof.
  intros Hfit. induction i as [|i IH]; intros Ha Hb Hzero; [done|].
  rewrite edit_step in Hzero by done.
  pose proof (edit_bounds a b Hfit i i ltac:(lia) ltac:(lia)).
  pose proof (edit_bounds a b Hfit i (S i) ltac:(lia) ltac:(lia)).
  pose proof (edit_bounds a b Hfit (S i) i ltac:(lia) ltac:(lia)).
  pose proof (pairScore_range (a !!! i) (b !!! i) 0 1 ltac:(lia) ltac:(lia)).
  assert (Hi : cost a b 0 1 1 i i = 0) by lia.
  assert (Hs : pairScore (a !!! i) (b !!! i) 0 1 = 0) by lia.
  apply pairScore_match in Hs; [|lia].
  destruct (lookup_lt_is_Some_2 a i ltac:(lia)) as [u Hu].
  destruct (lookup_lt_is_Some_2 b i ltac:(lia)) as [v Hv].
  rewrite (list_lookup_total_correct _ _ _ Hu), (list_lookup_total_correct _ _ _ Hv) in Hs.
  subst v. rewrite (take_S_r _ _ _ Hu), (take_S_r _ _ _ Hv). f_equal. by apply IH; try lia.
Qed.

(** Property X3.  With the scores every caller passes, the result
    is 0 exactly when the two sequences are equal, a rest being equal to
    a rest only. *)
Theorem global_alignment_zero_iff_equal (a b : list (option Z)) :
  Z.of_nat (length a + length b) < Int.max_int ->
  global_alignment a b 0 1 1 = 0 <-> a = b.
Proof.
  intros Hfit. split.
  - intros Hzero.
    pose proof (edit_bounds a b Hfit (length a) (length b) ltac:(lia) ltac:(lia)) as Hb.
    rewrite global_alignment_cost in Hzero.
    assert (Hlen : length a = length b) by lia.
    rewrite <- Hlen in Hzero.
    apply edit_zero_prefixes in Hzero; [|done|lia..].
    rewrite Hlen in Hzero at 2. by rewrite !firstn_all in Hzero.
  - intros <-. rewrite global_alignment_cost.
    apply edit_diagonal_zero; (done || lia).
Qed.

Lemma global_alignment_zero_iff_equal_witness :
  global_alignment [Some 4; None] [Some 4; None] 0 1 1 = 0
  <-> [Some 4; None] = [Some 4; None].
Proof.
  apply (global_alignment_zero_iff_equal [Some 4; None] [Some 4; None]).
  unfold Int.max_int. cbn. lia.
Defined.

(** Property X4.  With the scores every caller passes, appending
    the same element to both sequences leaves the result as it was, and
    appending an element to the first sequence alone moves it by at most
    one. *)
Theorem global_alignment_last_element (a b : list (option Z)) (e : option Z) :
  Z.of_nat (length a + length b) + 2 < Int.max_int ->
  global_alignment (a ++ [e]) (b ++ [e]) 0 1 1 = global_alignment a b 0 1 1
  /\ global_alignment a b 0 1 1 - 1
     <= global_alignment (a ++ [e]) b 0 1 1
     <= global_alignment a b 0 1 1 + 1.
Proof.
  intros Hfit. rewrite !global_alignment_cost, !length_app. cbn [length].
  rewrite !Nat.add_1_r.
  assert (Hfit' : Z.of_nat (length (a ++ [e]) + length (b ++ [e])) < Int.max_int).
  { rewrite !length_app. cbn. lia. }
  assert (Hfit'' : Z.of_nat (length (a ++ [e]) + length b) < Int.max_int).
  { rewrite !length_app. cbn. lia. }
  split.
  - rewrite edit_step by (done || rewrite length_app; cbn; lia).
    pose proof (edit_right (a ++ [e]) (b ++ [e]) Hfit' (length a) (length b)
                  ltac:(rewrite length_app; lia) ltac:(rewrite length_app; cbn; lia)).
    pose proof (edit_down (a ++ [e]) (b ++ [e]) (length a) (length b) Hfit'
                  ltac:(rewrite length_app; cbn; lia) ltac:(rewrite length_app; lia)).
    assert (pairScore ((a ++ [e]) !!! length a) ((b ++ [e]) !!! length b) 0 1 = 0) as ->.
    { rewrite !list_lookup_total_middle by done.
      destruct e as [u|]; cbn; [by rewrite Z.eqb_refl | done]. }
    rewrite <- (cost_prefix a [e] b [e]) by lia.
    lia.
  - pose proof (edit_down (a ++ [e]) b (length a) (length b) Hfit''
                  ltac:(rewrite length_app; cbn; lia) ltac:(lia)) as H.
    pose proof (cost_prefix a [e] b [] 0 1 1 (length a) (length b)
                  ltac:(lia) ltac:(lia)) as Hp.
    rewrite app_nil_r in Hp. rewrite Hp in H. lia.
Qed.

Lemma global_alignment_last_element_witness :
  global_alignment ([Some 1; Some 2] ++ [None]) ([Some 5] ++ [None]) 0 1 1
  = global_alignment [Some 1; Some 2] [Some 5] 0 1 1.
Proof.
  apply (global_alignment_last_element [Some 1; Some 2] [Some 5] None).
  unfold Int.max_int. cbn. lia.
Defined.

Lemma pairScore_triangle (u v w : option Z) :
  pairScore u w 0 1 <= pairScore u v 0 1 + pairScore v w 0 1.
Proof.
  pose proof (pairScore_range u w 0 1 ltac:(lia) ltac:(lia)).
  pose proof (pairScore_range u v 0 1 ltac:(lia) ltac:(lia)).
  pose proof (pairScore_range v w 0 1 ltac:(lia) ltac:(lia)).
  destruct (decide (pairScore u v 0 1 = 0)) as [Huv|]; [|lia].
  destruct (decide (pairScore v w 0 1 = 0)) as [Hvw|]; [|lia].
  apply pairScore_match in Huv, Hvw; [|lia..]. subst.
  assert (pairScore w w 0 1 = 0) by (by apply pairScore_match). lia.
Qed.

Lemma edit_triangle (a b c : list (option Z)) :
  Z.of_nat (length a + length b + length c) < Int.max_int ->
  forall n i j k, (i + j + k = n)%nat ->
    (i <= length a)%nat -> (j <= length b)%nat -> (k <= length c)%nat ->
    cost a c 0 1 1 i k <= cost a b 0 1 1 i j + cost b c 0 1 1 j k.
Proof.
  intros Hfit n. induction n as [n IH] using lt_wf_ind.
  intros i j k Hn Hi Hj Hk.
  assert (Hab : Z.of_nat (length a + length b) < Int.max_int) by lia.
  assert (Hbc : Z.of_nat (length b + length c) < Int.max_int) by lia.
  assert (Hac : Z.of_nat (length a + length c) < Int.max_int) by lia.
  pose proof (edit_bounds a b Hab i j Hi Hj).
  pose proof (edit_bounds b c Hbc j k Hj Hk).
  pose proof (edit_bounds a c Hac i k Hi Hk).
  destruct i as [|i].
  { rewrite (edit_row_0 a b Hab), (edit_row_0 a c Hac) by done. lia. }
  destruct k as [|k].
  { rewrite (edit_col_0 b c Hbc), (edit_col_0 a c Hac) by done. lia. }
  destruct j as [|j].
  { rewrite (edit_col_0 a b Hab), (edit_row_0 b c Hbc) by done. lia. }
  pose proof (edit_step a b Hab i j Hi Hj).
  pose proof (edit_step b c Hbc j k Hj Hk).
  pose proof (edit_step a c Hac i k Hi Hk).
  pose proof (pairScore_triangle (a !!! i) (b !!! j) (c !!! k)).
  pose proof (pairScore_range (a !!! i) (b !!! j) 0 1 ltac:(lia) ltac:(lia)).
  pose proof (pairScore_range (b !!! j) (c !!! k) 0 1 ltac:(lia) ltac:(lia)).
  assert (IH' : forall i' j' k', (i' + j' + k' < n)%nat ->
            (i' <= length a)%nat -> (j' <= length b)%nat ->
            (k' <= length c)%nat ->
            cost a c 0 1 1 i' k' <= cost a b 0 1 1 i' j' + cost b c 0 1 1 j' k').
  { intros i' j' k' Hlt. by apply (IH (i' + j' + k')%nat). }
  pose proof (IH' i (S j) (S k) ltac:(lia) ltac:(lia) Hj Hk).
  pose proof (IH' (S i) (S j) k ltac:(lia) Hi Hj ltac:(lia)).
  pose proof (IH' (S i) j (S k) ltac:(lia) Hi ltac:(lia) Hk).
  pose proof (IH' (S i) j k ltac:(lia) Hi ltac:(lia) ltac:(lia)).
  pose proof (IH' i j (S k) ltac:(lia) ltac:(lia) ltac:(lia) Hk).
  pose proof (IH' i j k ltac:(lia) ltac:(lia) ltac:(lia) ltac:(lia)).
  lia.
Qed.

(** Property X5.  With the scores every caller passes, the results
    obey the triangle inequality: aligning [a] with [c] costs no more than
    aligning [a] with [b] and then [b] with [c]. *)
Theorem global_alignment_triangle (a b c : list (option Z)) :
  Z.of_nat (length a + length b + length c) < Int.max_int ->
  global_alignment a c 0 1 1
  <= global_alignment a b 0 1 1 + global_alignment b c 0 1 1.
Proof.
  intros Hfit. rewrite !global_alignment_cost.
  by eapply edit_triangle.
Qed.

Lemma global_alignment_triangle_witness :
  global_alignment [Some 1; Some 2] [Some 3] 0 1 1
  <= global_alignment [Some 1; Some 2] [Some 1; None; Some 3] 0 1 1
     + global_alignment [Some 1; None; Some 3] [Some 3] 0 1 1.
Proof.
  apply (global_alignment_triangle [Some 1; Some 2] [Some 1; None; Some 3]
           [Some 3]).
  vm_compute. reflexivity.
Defined.

(** ** The writer and the batches of a sweep *)

Lemma same_queries_refl db : same_queries db db.
Proof. by repeat split. Qed.

Lemma same_queries_trans db1 db2 db3 :
  same_queries db1 db2 -> same_queries db2 db3 -> same_queries db1 db3.
Proof.
  intros (?&?&?&?&?&?&?) (?&?&?&?&?&?&?). repeat split; congruence.
Qed.

Lemma step_insert_same_queries is_segment db a :
  same_queries db (step_insert is_segment db a).
Proof.
  unfold step_insert, insert_row.
  destruct (accepts db _ _); [|apply same_queries_refl].
  by destruct is_segment.
Qed.

Lemma insert_loop_same_queries is_segment alignments : forall db,
  same_queries db (foldl (step_insert is_segment) db alignments).
Proof.
  induction alignments as [|a alignments IH]; intros db; cbn [foldl].
  - apply same_queries_refl.
  - eapply same_queries_trans; [apply step_insert_same_queries | apply IH].
Qed.

Lemma save_alignments_batch_same_queries db alignments is_segment :
  same_queries db (save_alignments_batch db alignments is_segment).
Proof.
  unfold save_alignments_batch. destruct (prepares db _); cbn [negb].
  - apply insert_loop_same_queries.
  - apply same_queries_refl.
Qed.

Lemma save_alignments_batch_app db l1 l2 is_segment :
  save_alignments_batch db (l1 ++ l2) is_segment
  = save_alignments_batch (save_alignments_batch db l1 is_segment) l2 is_segment.
Proof.
  destruct (save_alignments_batch_same_queries db l1 is_segment) as (Hp & _).
  unfold save_alignments_batch at 1 2. rewrite Hp.
  destruct (prepares db _) eqn:Hprep; cbn [negb].
  - unfold save_alignments_batch. rewrite Hprep. cbn [negb]. apply foldl_app.
  - unfold save_alignments_batch. by rewrite Hprep.
Qed.

Lemma save_alignments_batch_nil db is_segment :
  save_alignments_batch db [] is_segment = db.
Proof. unfold save_alignments_batch. by destruct (prepares db _). Qed.

Lemma save_batches_concat is_segment batches : forall db,
  save_batches is_segment db batches
  = save_alignments_batch db (concat batches) is_segment.
Proof.
  induction batches as [|b batches IH]; intros db.
  - cbn. by rewrite save_alignments_batch_nil.
  - cbn [concat]. rewrite save_alignments_batch_app, <- IH. reflexivity.
Qed.

(** Property X6.  [save_alignments_batch] only appends to the table
    of its mode: the rows it adds are, in order, rows bound from the batch
    (those the store took); the other table and every query answer stay as
    they were; and when the insert statement cannot be prepared the store
    is left untouched. *)
Theorem save_alignments_batch_append_only db alignments is_segment :
  let db' := save_alignments_batch db alignments is_segment in
  (exists stored,
      table db' is_segment = table db is_segment ++ stored
      /\ stored `sublist_of` (bound_row is_segment <$> alignments))
  /\ table db' (negb is_segment) = table db (negb is_segment)
  /\ same_queries db db'
  /\ (prepares db (if is_segment then InsertSegmentAlignment
                   else InsertScoreAlignment) = false -> db' = db).
Proof.
  cbn zeta. split_and!.
  - destruct (save_alignments_batch_stored is_segment db alignments)
      as (stored & Ht & _ & _ & _ & Hsub & _).
    by exists stored.
  - by destruct (save_alignments_batch_stored is_segment db alignments)
      as (stored & _ & Ho & _).
  - apply save_alignments_batch_same_queries.
  - intros Hprep. unfold save_alignments_batch. by rewrite Hprep.
Qed.

(** Property X7.  Saving a batch in two pieces, one after the
    other, leaves the store as saving it whole does; saving an empty batch
    changes nothing. *)
Theorem save_alignments_batch_split db l1 l2 is_segment :
  save_alignments_batch db (l1 ++ l2) is_segment
  = save_alignments_batch (save_alignments_batch db l1 is_segment) l2 is_segment
  /\ save_alignments_batch db [] is_segment = db.
Proof.
  split; [apply save_alignments_batch_app | apply save_alignments_batch_nil].
Qed.

(** Property X8.  The batching of [process_alignments] cannot be
    observed in the tables: on any store, also one that refuses rows or
    statements, the run returns and leaves the store as a single call of
    the writer on all pair records, in scan order, would. *)
Theorem process_alignments_single_save db data is_segment level :
  process_alignments db data is_segment level
  = Ret (save_alignments_batch db (pair_records (align_pair level) data) is_segment).
Proof.
  destruct (process_alignments_batches db data is_segment level)
    as (batches & -> & <- & _).
  by rewrite save_batches_concat.
Qed.

(** Property X9.  The same for the sweep over shared segments: when
    the group ids of the store fit the profiles, the run returns and leaves
    the store as a single call of the writer on all pair records would. *)
Theorem process_shared_segments_alignments_single_save db level :
  well_formed_groups db ->
  let scores := get_all_score_ids db in
  process_shared_segments_alignments db level
  = Ret (save_alignments_batch db
           (pair_records (shared_record db level (cached_occurrences db scores)) scores)
           false).
Proof.
  intros Hwf scores. subst scores.
  destruct (process_shared_segments_alignments_batches db level Hwf)
    as (batches & -> & <- & _).
  by rewrite save_batches_concat.
Qed.

Lemma process_shared_segments_alignments_single_save_witness :
  let scores := get_all_score_ids sample_db in
  process_shared_segments_alignments sample_db "shared_segments"
  = Ret (save_alignments_batch sample_db
           (pair_records
              (shared_record sample_db "shared_segments"
                 (cached_occurrences sample_db scores)) scores)
           false).
Proof.
  exact (process_shared_segments_alignments_single_save sample_db
           "shared_segments"%string sample_db_well_formed).
Defined.

(** Property X10.  The row stored for a pair does not depend on the
    direction in which the two entities are compared: the ids are put in
    order and each of the five scores is symmetric. *)
Theorem align_pair_direction is_segment level (d_i d_j : FeatureData) :
  bound_row is_segment (align_pair level d_i d_j)
  = bound_row is_segment (align_pair level d_j d_i).
Proof.
  unfold bound_row, align_pair. cbn.
  rewrite (Z.min_comm (id d_i)), (Z.max_comm (id d_i)).
  rewrite !global_alignment_cost.
  rewrite (cost_transpose (diatonic_feature d_i)),
    (cost_transpose (chromatic_feature d_i)),
    (cost_transpose (rhythmic_feature d_i)),
    (cost_transpose (diatonic_rhythmic_feature d_i)),
    (cost_transpose (chromatic_rhythmic_feature d_i)).
  reflexivity.
Qed.

(** ** What a run of [main] leaves in the store *)

Lemma foldlM_invariant {A B} (P : A -> Prop) (f : A -> B -> outcome A) (l : list B) :
  (forall a x a', P a -> f a x = Ret a' -> P a') ->
  forall a a', P a -> foldlM f a l = Ret a' -> P a'.
Proof.
  intros Hstep. induction l as [|x l IH]; intros a a' Ha Hrun.
  - cbn in Hrun. by injection Hrun as <-.
  - cbn [foldlM] in Hrun. destruct (f a x) as [a1| |] eqn:Hf; try discriminate.
    cbn in Hrun. eapply IH; [|exact Hrun]. by eapply Hstep.
Qed.

Section SweepStore.

Context {E : Type} `{!Inhabited E}.
Variable compare : E -> E -> outcome AlignmentScores.
Variable is_segment : bool.
Variable data : list E.
Variable db : sqlite3.

#[local] Abbreviation saved_so_far := (saved_so_far is_segment db).

Lemma pair_body_saved i j st st' :
  saved_so_far st ->
  pair_body compare is_segment data i st j = Ret st' ->
  saved_so_far st'.
Proof.
  destruct st as [batch dbc]. intros [records Hdb]. cbn [snd] in Hdb. subst dbc.
  unfold pair_body.
  destruct (compare (data !!! i) (data !!! j)) as [scores| |]; try discriminate.
  cbn [mbind outcome_bind]. destruct (_ <=? _)%nat; intros [= <-].
  - exists (records ++ (batch ++ [scores])). cbn [snd].
    symmetry. apply save_alignments_batch_app.
  - by exists records.
Qed.

Lemma pair_loop_saved db' :
  pair_loop compare is_segment data db = Ret db' ->
  exists records, db' = save_alignments_batch db records is_segment.
Proof.
  unfold pair_loop.
  destruct (foldlM _ _ _) as [[batch dbc]| |] eqn:Hrun; try discriminate.
  cbn [mbind outcome_bind].
  assert (Hinv : saved_so_far (batch, dbc)).
  { eapply (foldlM_invariant saved_so_far); [|exists []|exact Hrun].
    - intros st i st' Hst Hrow. unfold row_body in Hrow.
      eapply (foldlM_invariant saved_so_far); [|exact Hst|exact Hrow].
      intros a x a' Ha Hbody. by eapply pair_body_saved.
    - cbn [snd]. by rewrite save_alignments_batch_nil. }
  destruct Hinv as [records Hdb]. cbn [snd] in Hdb. subst dbc.
  destruct batch as [|r batch]; intros [= <-].
  - by exists records.
  - exists (records ++ r :: batch). symmetry. apply save_alignments_batch_app.
Qed.

End SweepStore.

(** Property X11.  Whenever [main] returns with a connection it has
    worked on, the exit status is 0, a database had been opened, and the
    run has only appended rows to the table of its mode: the other table
    and the query answers are as before. *)
Theorem main_store_discipline argv opened status db' :
  main argv opened = Ret (status, Some db') ->
  status = 0
  /\ exists db stored,
       opened = Some db
       /\ let is_segment := bool_decide (argv !!! 1%nat = "--type=segment"%string) in
          table db' is_segment = table db is_segment ++ stored
          /\ table db' (negb is_segment) = table db (negb is_segment)
          /\ same_queries db db'.
Proof.
  unfold main. destruct (length argv <? 2)%nat; [discriminate|].
  set (is_segment := bool_decide (argv !!! 1%nat = "--type=segment"%string)).
  destruct (if negb is_segment then _ else _) as [code|level]; [discriminate|].
  destruct opened as [db|]; [|discriminate].
  intros Hrun.
  assert (Hsweep : exists records,
             status = 0 /\ db' = save_alignments_batch db records is_segment).
  { destruct (negb is_segment && bool_decide (level = "shared_segments"%string))
      eqn:Hshared.
    - apply andb_prop in Hshared as [Hseg _]. apply negb_true_iff in Hseg.
      unfold process_shared_segments_alignments in Hrun.
      destruct (pair_loop _ _ _ _) as [dbx| |] eqn:Hloop; try discriminate.
      injection Hrun as <- <-. apply pair_loop_saved in Hloop as [records ->].
      exists records. by rewrite Hseg.
    - destruct (get_feature_data _ _ _) as [data| |]; try discriminate.
      cbn [mbind outcome_bind] in Hrun. unfold process_alignments in Hrun.
      destruct (pair_loop _ _ _ _) as [dbx| |] eqn:Hloop; try discriminate.
      injection Hrun as <- <-. apply pair_loop_saved in Hloop as [records ->].
      by exists records. }
  destruct Hsweep as (records & -> & ->). split; [done|].
  destruct (save_alignments_batch_stored is_segment db records)
    as (stored & Ht & Ho & _).
  exists db, stored. split_and!; try done.
  apply save_alignments_batch_same_queries.
Qed.

Lemma main_store_discipline_witness :
  exists db',
    main ["compute_features_alignment"; "--type=score"; "--level"; "note"]%string
         (Some sample_db) = Ret (0, Some db')
    /\ table db' true = table sample_db true.
Proof.
  destruct (main ["compute_features_alignment"; "--type=score"; "--level"; "note"]%string
              (Some sample_db)) as [[status [db'|]]| |] eqn:Hrun;
    try (vm_compute in Hrun; discriminate).
  destruct (main_store_discipline _ _ _ _ Hrun) as (-> & db & stored & [= <-] & _ & Ho & _).
  exists db'. split; [done|]. exact Ho.
Defined.

(** ** The command line *)

(** Property X12.  [main] returns status 1 without touching a store
    exactly when the command line is not one the usage text allows or the
    database could not be opened.  Arguments after [--type=segment] are
    not looked at. *)
Theorem main_exit_status argv opened :
  main argv opened = Ret (1, None)
  <-> ~ accepted_command_line argv \/ opened = None.
Proof.
  unfold main.
  destruct argv as [|prog [|type rest]].
  - split; [|done]. intros _. left. intros [(?&?&?)|(?&?&?&?&?)]; done.
  - split; [|done]. intros _. left. intros [(?&?&?)|(?&?&?&?&?)]; done.
  - replace (length (prog :: type :: rest) <? 2)%nat with false
      by (symmetry; apply Nat.ltb_ge; cbn; lia).
    cbv zeta. change ((prog :: type :: rest) !!! 1%nat) with type.
    destruct (decide (type = "--type=segment"%string)) as [->|Htype].
    + rewrite bool_decide_eq_true_2 by done. cbn [negb andb].
      destruct opened as [db|].
      * split.
        -- intros Hrun. exfalso.
           destruct (get_feature_data _ _ _) as [data| |]; [|done..].
           cbn in Hrun. by destruct (process_alignments _ _ _ _).
        -- intros [Hrej|]; [|done]. destruct Hrej. left. by eexists _, _.
      * split; [by right|done].
    + rewrite bool_decide_eq_false_2 by done. cbn [negb andb].
      destruct rest as [|flag [|level [|extra rest]]].
      1,2,4: split; [|done]; intros _; left;
        intros [(?&?&?)|(?&?&?&?&?)]; simplify_eq.
      change (length [prog; type; flag; level] =? 4)%nat with true.
      cbn [negb orb]. change ([prog; type; flag; level] !!! 2%nat) with flag.
      change ([prog; type; flag; level] !!! 3%nat) with level.
      destruct (decide (flag = "--level"%string)) as [->|Hflag].
      2:{ rewrite bool_decide_eq_false_2 by done. cbn [negb].
          split; [|done]. intros _. left.
          intros [(?&?&?)|(?&?&?&?&?)]; simplify_eq. }
      rewrite bool_decide_eq_true_2 by done. cbn [negb].
      destruct (decide (level ∈ ["note"; "structure"; "shared_segments"]%string))
        as [Hlevel|Hlevel].
      * assert (Hok : bool_decide (level ≠ "note"%string)
                      && bool_decide (level ≠ "structure"%string)
                      && bool_decide (level ≠ "shared_segments"%string) = false).
        { set_unfold in Hlevel. destruct Hlevel as [->|[->|[->|[]]]]; done. }
        rewrite Hok. destruct opened as [db|]; [|split; [by right|done]].
        split.
        -- intros Hrun. exfalso.
           destruct (bool_decide (level = "shared_segments"%string)).
           ++ by destruct (process_shared_segments_alignments _ _).
           ++ destruct (get_feature_data _ _ _) as [data| |]; [|done..].
              cbn in Hrun. by destruct (process_alignments _ _ _ _).
        -- intros [Hrej|]; [|done]. destruct Hrej. right. by eexists _, _, _.
      * assert (Hbad : bool_decide (level ≠ "note"%string)
                       && bool_decide (level ≠ "structure"%string)
                       && bool_decide (level ≠ "shared_segments"%string) = true).
        { set_unfold in Hlevel.
          rewrite !bool_decide_eq_true_2; [done|naive_solver..]. }
        rewrite Hbad. split; [|done]. intros _. left.
        intros [(?&?&?)|(?&?&?&?&?&?)]; by simplify_eq.
Qed.

(** ** The segment groups of a score *)

Lemma occurrences_of_snoc g rows r :
  occurrences_of g (rows ++ [r])
  = (occurrences_of g rows + (if decide (r = g) then 1 else 0))%nat.
Proof.
  unfold occurrences_of. rewrite filter_app, length_app, filter_cons, filter_nil.
  by destruct (decide (r = g)).
Qed.

Lemma occurrences_of_le g rows : (occurrences_of g rows <= length rows)%nat.
Proof. unfold occurrences_of. apply length_filter. Qed.

Lemma tally_lookup (rows : list Z) g :
  Z.of_nat (length rows) <= Int.max_int ->
  foldl (fun (group_counts : gmap Z Z) group_id =>
           <[group_id := Int.add (map_at group_counts group_id) 1]> group_counts)
        ∅ rows !! g
  = if decide (occurrences_of g rows = 0%nat) then None
    else Some (Z.of_nat (occurrences_of g rows)).
Proof.
  set (count := fun (group_counts : gmap Z Z) group_id =>
           <[group_id := Int.add (map_at group_counts group_id) 1]> group_counts).
  induction rows as [|r rows IH] using rev_ind; intros Hlen.
  - cbn. by rewrite lookup_empty.
  - rewrite length_app in Hlen. cbn in Hlen.
    rewrite foldl_app. cbn [foldl].
    pose proof (occurrences_of_le g rows).
    unfold count at 1.
    destruct (decide (r = g)) as [->|Hne].
    + rewrite occurrences_of_snoc, (decide_True (P := g = g)) by done.
      rewrite lookup_insert_eq. unfold map_at. rewrite IH by lia.
      rewrite (decide_False (P := (occurrences_of g rows + 1)%nat = 0%nat)) by lia.
      f_equal. unfold Int.add.
      destruct (decide (occurrences_of g rows = 0%nat)) as [->|Hpos]; cbn.
      * reflexivity.
      * rewrite wrap_small; [lia|]. unfold Int.in_range, Int.min_int. lia.
    + rewrite occurrences_of_snoc, (decide_False (P := r = g)) by done.
      rewrite lookup_insert_ne by done. rewrite IH by lia.
      by rewrite Nat.add_0_r.
Qed.

(** Property X13.  [get_group_occurrences] tallies the rows of the
    query: a group id has an entry exactly when some row carries it, and
    the entry is the number of such rows; when the statement cannot be
    prepared the map is empty.  The rows are assumed few enough for an int
    counter. *)
Theorem get_group_occurrences_tally db score_id feature_type g :
  let rows := segment_group_rows db score_id feature_type in
  Z.of_nat (length rows) <= Int.max_int ->
  get_group_occurrences db score_id feature_type !! g
  = if prepares db SelectSegmentGroups then
      (if decide (occurrences_of g rows = 0%nat) then None
       else Some (Z.of_nat (occurrences_of g rows)))
    else None.
Proof.
  intros rows Hlen. unfold get_group_occurrences.
  destruct (prepares db SelectSegmentGroups); cbn [negb].
  - by apply tally_lookup.
  - apply lookup_empty.
Qed.

Lemma get_group_occurrences_tally_witness :
  get_group_occurrences sample_db 2 "diatonic" !! 1 = Some 2.
Proof.
  refine (get_group_occurrences_tally sample_db 2 "diatonic"%string 1 _).
  unfold Int.max_int. cbn. lia.
Defined.

Lemma get_structural_feature_rows db score_id feature_type :
  get_structural_feature db score_id feature_type
  = if prepares db SelectSegmentGroups
    then Some <$> segment_group_rows db score_id feature_type
    else [].
Proof.
  unfold get_structural_feature. destruct (prepares db _); cbn [negb]; [|done].
  induction (segment_group_rows db score_id feature_type) as [|r rows IH] using rev_ind.
  - done.
  - by rewrite foldl_app, fmap_app, IH.
Qed.

(** Property X14.  The two readers of the segment groups of a score
    agree: [get_structural_feature] yields no rest, and the number of times
    a group id occurs in it is the count [get_group_occurrences] holds for
    that id (0 when it holds none). *)
Theorem structural_feature_matches_occurrences db score_id feature_type g :
  Z.of_nat (length (segment_group_rows db score_id feature_type)) <= Int.max_int ->
  let feature := get_structural_feature db score_id feature_type in
  Forall (fun e => has_value e = true) feature
  /\ map_at (get_group_occurrences db score_id feature_type) g
     = Z.of_nat (length (filter (fun e => e = Some g) feature)).
Proof.
  intros Hlen feature. subst feature.
  rewrite get_structural_feature_rows. unfold map_at.
  unfold get_group_occurrences.
  destruct (prepares db SelectSegmentGroups); cbn [negb];
    [|by rewrite lookup_empty].
  rewrite tally_lookup by done.
  split.
  - apply Forall_fmap, Forall_true. done.
  - assert (Hcount : forall rows : list Z,
              length (filter (fun e => e = Some g) (Some <$> rows))
              = occurrences_of g rows).
    { induction rows as [|r rows IH]; [done|].
      unfold occurrences_of in *. rewrite fmap_cons, !filter_cons.
      destruct (decide (r = g)) as [->|Hne].
      - rewrite decide_True by done. cbn. by rewrite IH.
      - rewrite decide_False by congruence. done. }
    rewrite Hcount. by destruct (decide _) as [->|].
Qed.

Lemma structural_feature_matches_occurrences_witness :
  Forall (fun e => has_value e = true)
         (get_structural_feature sample_db 2 "diatonic")
  /\ map_at (get_group_occurrences sample_db 2 "diatonic") 1
     = Z.of_nat (length (filter (fun e => e = Some 1)
                                (get_structural_feature sample_db 2 "diatonic"))).
Proof.
  apply (structural_feature_matches_occurrences sample_db 2 "diatonic" 1).
  vm_compute. discriminate.
Defined.

(** ** Loading the feature data *)

Lemma load_row_loaded db is_structure data row :
  load_row db is_structure data row
  = Ret (data ++ [loaded_row db is_structure row]).
Proof.
  unfold load_row, loaded_row. destruct is_structure; [done|].
  by rewrite !convert_column_returns.
Qed.

Lemma load_rows_loaded db is_structure rows : forall data,
  foldlM (load_row db is_structure) data rows
  = Ret (data ++ (loaded_row db is_structure <$> rows)).
Proof.
  induction rows as [|row rows IH]; intros data; cbn [foldlM].
  - cbn. by rewrite app_nil_r.
  - rewrite load_row_loaded. cbn [mbind outcome_bind]. rewrite IH.
    by rewrite <- app_assoc.
Qed.

(** Property X15.  [get_feature_data] always returns, with one
    record per row of its query, in the order of the rows and with their
    ids; a NULL text column is read as the empty sequence. *)
Theorem get_feature_data_rows db is_segment is_structure :
  let rows := feature_query_rows db is_segment is_structure in
  exists data,
    get_feature_data db is_segment is_structure = Ret data
    /\ data = loaded_row db is_structure <$> rows
    /\ length data = length rows
    /\ id <$> data = col_id <$> rows
    /\ (is_structure = false ->
        forall i row d, rows !! i = Some row -> data !! i = Some d ->
          col_diatonic row = None -> diatonic_feature d = []).
Proof.
  intros rows. exists (loaded_row db is_structure <$> rows).
  split_and!; try done.
  - unfold get_feature_data. subst rows. unfold feature_query_rows.
    destruct is_segment; [|destruct is_structure].
    all: destruct (prepares db _); cbn [negb]; [|done].
    all: by rewrite load_rows_loaded.
  - by rewrite length_fmap.
  - rewrite <- list_fmap_compose. apply list_fmap_ext. intros i row _.
    unfold loaded_row. cbn. by destruct is_structure.
  - intros -> i row d Hrow Hd Hnull. rewrite list_lookup_fmap, Hrow in Hd.
    injection Hd as <-. cbn. by rewrite Hnull.
Qed.

(** ** Occurrence profiles *)

Lemma fill_loop_undefined max_group_id (l : list (Z * Z)) :
  foldl (fill max_group_id) Undefined l = Undefined.
Proof. induction l as [|[g c] l IH]; [done|]. cbn [foldl]. apply IH. Qed.

Lemma fill_loop_outcome max_group_id (l : list (Z * Z)) : forall v0,
  match foldl (fill max_group_id) (Ret v0) l with
  | Ret v =>
      (forall p, p ∈ l -> p.1 <= max_group_id -> 0 <= p.1)
      /\ length v = length v0
  | Throw _ => False
  | Undefined => exists p, p ∈ l /\ p.1 < 0 /\ p.1 <= max_group_id
  end.
Proof.
  induction l as [|[g c] l IH]; intros v0.
  - cbn. split; [|done]. intros p Hp. by apply elem_of_nil in Hp.
  - cbn [foldl]. unfold fill at 2. cbn [mbind outcome_bind].
    destruct (Z.leb_spec g max_group_id) as [Hle|Hgt].
    + destruct (Z.ltb_spec g 0) as [Hneg|Hpos].
      * rewrite fill_loop_undefined. exists (g, c). split; [left|done].
      * specialize (IH (<[Z.to_nat g := Double.of_int c]> v0)).
        destruct (foldl _ _ l) as [v| |]; [|done|].
        -- destruct IH as [Hall Hlen]. rewrite length_insert in Hlen. split; [|done].
           intros p [->|Hp]%elem_of_cons; [done | by apply Hall].
        -- destruct IH as (p & Hp & Hbad). exists p. split; [by right | done].
    + specialize (IH v0). destruct (foldl _ _ l) as [v| |]; [|done|].
      * destruct IH as [Hall Hlen]. split; [|done].
        intros p [->|Hp]%elem_of_cons; [cbn; lia | by apply Hall].
      * destruct IH as (p & Hp & Hbad). exists p. split; [by right | done].
Qed.

(** Property X16.  The three outcomes of [map_to_vector], for a
    largest group id whose successor is an int.  It returns, with a vector
    of [max_group_id + 1] cells, only when no key up to [max_group_id] is
    negative; it throws [length_error] exactly when [max_group_id < -1];
    and a negative key makes it write before the start of the vector. *)
Theorem map_to_vector_outcomes (occurrences : gmap Z Z) max_group_id :
  Int.min_int <= max_group_id < Int.max_int ->
  match map_to_vector occurrences max_group_id with
  | Ret v =>
      -1 <= max_group_id
      /\ (forall g, is_Some (occurrences !! g) -> g <= max_group_id -> 0 <= g)
      /\ Z.of_nat (length v) = max_group_id + 1
  | Throw e => e = length_error /\ max_group_id < -1
  | Undefined =>
      -1 <= max_group_id
      /\ exists g, is_Some (occurrences !! g) /\ g < 0 /\ g <= max_group_id
  end.
Proof.
  intros Hrange. unfold map_to_vector.
  assert (Hsize : Int.add max_group_id 1 = max_group_id + 1).
  { unfold Int.add. apply wrap_small.
    unfold Int.in_range, Int.min_int, Int.max_int in *. lia. }
  rewrite Hsize. clear Hsize.
  destruct (Z.ltb_spec (max_group_id + 1) 0) as [Hneg|Hpos].
  { split; [done | lia]. }
  pose proof (fill_loop_outcome max_group_id (entries occurrences)
                (replicate (Z.to_nat (max_group_id + 1)) 0%float)) as Hloop.
  destruct (foldl _ _ _) as [v| |]; [|done|].
  - destruct Hloop as [Hall Hlen]. rewrite length_replicate in Hlen.
    split_and!; [lia | | lia].
    intros g [c Hc] Hg. apply (Hall (g, c)); [|done]. by apply elem_of_entries.
  - destruct Hloop as ([g c] & Hin & Hneg & Hle). split; [lia|].
    exists g. split_and!; [|done..]. exists c. by apply elem_of_entries.
Qed.

Lemma map_to_vector_outcomes_witness :
  map_to_vector ∅ (-2) = Throw length_error
  /\ map_to_vector {[ (-1) := 3 ]} 2 = Undefined.
Proof.
  assert (H2 : Int.min_int <= -2 < Int.max_int) by (by vm_compute).
  assert (H3 : Int.min_int <= 2 < Int.max_int) by (by vm_compute).
  pose proof (map_to_vector_outcomes ∅ (-2) H2) as Ha.
  pose proof (map_to_vector_outcomes {[ (-1) := 3 ]} 2 H3) as Hb.
  split.
  - destruct (map_to_vector ∅ (-2)) as [v|e|].
    + destruct Ha as [Ha _]. lia.
    + destruct Ha as [-> _]. reflexivity.
    + destruct Ha as [Ha _]. lia.
  - destruct (map_to_vector {[ (-1) := 3 ]} 2) as [v|e|].
    + destruct Hb as (_ & Hb & _).
      specialize (Hb (-1) ltac:(rewrite lookup_singleton_eq; by eexists) ltac:(lia)). lia.
    + destruct Hb as [_ Hb]. lia.
    + reflexivity.
Defined.

(** Property X17.  With no negative key, cell [g] of the vector
    [map_to_vector] returns holds the count of group [g] as a double, and
    0.0 when the map has no entry for [g]; keys above [max_group_id] are
    dropped. *)
Theorem map_to_vector_contents (occurrences : gmap Z Z) max_group_id :
  0 <= max_group_id < Int.max_int ->
  (forall g, is_Some (occurrences !! g) -> 0 <= g) ->
  exists v,
    map_to_vector occurrences max_group_id = Ret v
    /\ Z.of_nat (length v) = max_group_id + 1
    /\ forall g, 0 <= g <= max_group_id ->
         v !! Z.to_nat g
         = Some (match occurrences !! g with
                 | Some count => Double.of_int count
                 | None => 0%float
                 end).
Proof.
  intros Hmax Hkeys. exists (profile occurrences max_group_id).
  split_and!.
  - by apply map_to_vector_profile.
  - apply length_profile. lia.
  - intros g Hg. unfold profile.
    rewrite list_lookup_fmap, lookup_seq_lt by lia. cbn.
    by rewrite Z2Nat.id by lia.
Qed.

Lemma map_to_vector_contents_witness :
  exists v,
    map_to_vector {[ 0 := 5; 3 := 2; 9 := 1 ]} 4 = Ret v
    /\ Z.of_nat (length v) = 5.
Proof.
  destruct (map_to_vector_contents {[ 0 := 5; 3 := 2; 9 := 1 ]} 4) as (v & Hv & Hlen & _).
  - unfold Int.max_int. lia.
  - intros g [c Hc].
    destruct (decide (g = 0)) as [->|]; [lia|].
    destruct (decide (g = 3)) as [->|]; [lia|].
    destruct (decide (g = 9)) as [->|]; [lia|].
    rewrite !lookup_insert_ne, lookup_singleton_ne in Hc by done. discriminate.
  - exists v. split; [exact Hv | exact Hlen].
Defined.

(** ** The Euclidean distance on doubles *)

Section FloatFacts.

Import SpecFloat.

Lemma binary_round_aux_opp prec emax mx ex lx :
  binary_round_aux prec emax true mx ex lx
  = SFopp (binary_round_aux prec emax false mx ex lx).
Proof.
  unfold binary_round_aux.
  destruct (shr_fexp prec emax mx ex lx) as [mrs' e'].
  destruct (shr_fexp prec emax _ e' loc_Exact) as [mrs'' e''].
  destruct (shr_m mrs''); [done| |done].
  by destruct (_ <=? _).
Qed.

Lemma binary_normalize_opp prec emax z e :
  binary_normalize prec emax (- z) e false = binary_normalize prec emax z e false
  \/ binary_normalize prec emax (- z) e false
     = SFopp (binary_normalize prec emax z e false).
Proof.
  destruct z as [|p|p]; [by left|right..].
  - change (- Z.pos p) with (Z.neg p). cbn [binary_normalize]. unfold binary_round.
    destruct (shl_align _ _ _) as [mz ez]. apply binary_round_aux_opp.
  - change (- Z.neg p) with (Z.pos p). cbn [binary_normalize]. unfold binary_round.
    destruct (shl_align _ _ _) as [mz ez]. rewrite binary_round_aux_opp.
    by destruct (binary_round_aux _ _ false _ _ _) as [[]|[]| |[] ? ?].
Qed.

Lemma SFsub_swap prec emax x y :
  SFsub prec emax y x = SFsub prec emax x y
  \/ SFsub prec emax y x = SFopp (SFsub prec emax x y).
Proof.
  destruct x as [sx|sx| |sx mx ex], y as [sy|sy| |sy my ey];
    try (destruct sx, sy; cbn; auto; fail);
    try (destruct sx; cbn; auto; fail);
    try (destruct sy; cbn; auto; fail);
    try (cbn; auto; fail).
  cbn [SFsub]. rewrite (Z.min_comm ey ex).
  match goal with
  | |- context [binary_normalize _ _ (?u - ?v) ?e false] =>
      replace (v - u) with (- (u - v)) by lia;
      apply binary_normalize_opp
  end.
Qed.

Lemma SFmul_opp_opp prec emax r :
  SFmul prec emax (SFopp r) (SFopp r) = SFmul prec emax r r.
Proof. by destruct r as [[]|[]| |[] m e]. Qed.

End FloatFacts.

Lemma sq_diff_swap (x y : float) :
  ((x - y) * (x - y))%float = ((y - x) * (y - x))%float.
Proof.
  apply Prim2SF_inj. rewrite !mul_spec, !sub_spec. unfold SF64mul, SF64sub.
  destruct (SFsub_swap prec emax (Prim2SF x) (Prim2SF y)) as [->| ->]; [done|].
  by rewrite SFmul_opp_opp.
Qed.

Lemma sub_diag_finite (x : float) :
  is_finite x = true -> (x - x)%float = 0%float.
Proof.
  unfold is_finite. intros Hfin. apply Prim2SF_inj. rewrite sub_spec.
  change (Prim2SF 0) with (SpecFloat.S754_zero false).
  destruct (Prim2SF x) as [[]|[]| |s m e]; try done.
  unfold SF64sub. cbn [SpecFloat.SFsub]. by rewrite Z.sub_diag.
Qed.

Lemma sum_sq_diffs_swap (v1 : list float) : forall v2 acc,
  sum_sq_diffs acc (zip v1 v2) = sum_sq_diffs acc (zip v2 v1).
Proof.
  induction v1 as [|x v1 IH]; intros [|y v2] acc; try done.
  cbn. rewrite (sq_diff_swap x y). apply IH.
Qed.

Lemma sum_sq_diffs_diag (v : list float) :
  Forall (fun x => is_finite x = true) v ->
  sum_sq_diffs 0%float (zip v v) = 0%float.
Proof.
  induction 1 as [|x v Hx Hv IH]; [done|].
  cbn. rewrite (sub_diag_finite x Hx). exact IH.
Qed.

(** Property X18.  [euclidean_distance] is symmetric in its two
    vectors, for all doubles and all lengths. *)
Theorem euclidean_distance_symmetric (v1 v2 : list float) :
  euclidean_distance v1 v2 = euclidean_distance v2 v1.
Proof.
  rewrite !euclidean_distance_padded. unfold padded_distance. f_equal.
  rewrite (sum_sq_diffs_swap v1 v2). f_equal.
  destruct (Nat.le_ge_cases (length v1) (length v2)) as [Hle|Hge].
  - rewrite (drop_ge v1) by done. by rewrite app_nil_r.
  - rewrite (drop_ge v2) by done. by rewrite app_nil_r.
Qed.

(** Property X19.  The distance of a vector of finite doubles to
    itself is 0.0.  (An infinite element gives NaN instead, see the example
    below.) *)
Theorem euclidean_distance_self (v : list float) :
  Forall (fun x => is_finite x = true) v ->
  euclidean_distance v v = 0%float.
Proof.
  intros Hfin. rewrite euclidean_distance_padded. unfold padded_distance.
  rewrite sum_sq_diffs_diag by done. rewrite drop_all. reflexivity.
Qed.

Lemma euclidean_distance_self_witness :
  euclidean_distance [1; 0; 2.5]%float [1; 0; 2.5]%float = 0%float.
Proof.
  apply (euclidean_distance_self [1; 0; 2.5]%float).
  repeat constructor.
Defined.

(** Without the precondition the distance of a vector to itself need not
    be zero. *)
Example euclidean_distance_self_infinite :
  euclidean_distance [infinity] [infinity] = nan.
Proof. reflexivity. Qed.

(** ** The parser of feature texts *)

Lemma fields_nonempty s : fields s <> [].
Proof.
  destruct s as [|c s]; cbn; [done|].
  destruct (Ascii.eqb c ";"); [done|]. by destruct (fields s).
Qed.

Lemma fields_app s1 s2 :
  fields (s1 ++ String ";" s2) = fields s1 ++ fields s2.
Proof.
  induction s1 as [|c s1 IH]; [done|].
  change (fields (String c s1 ++ String ";" s2))
    with (fields (String c (s1 ++ String ";" s2))).
  cbn [fields]. destruct (Ascii.eqb c ";").
  - by rewrite IH.
  - rewrite IH. pose proof (fields_nonempty s1). by destruct (fields s1).
Qed.

Lemma tokens_app s1 s2 :
  tokens (s1 ++ String ";" s2) = tokens s1 ++ tokens s2.
Proof. unfold tokens. by rewrite fields_app, filter_app. Qed.

(** Property X20.  [convert_feature_to_vector] works token by token:
    the conversion of two texts joined by the delimiter is the conversion
    of the first followed by the conversion of the second, for the elements
    and for the diagnostics. *)
Theorem convert_feature_to_vector_joined s1 s2 :
  exists r1 e1 r2 e2,
    convert_feature_to_vector s1 = Ret (r1, e1)
    /\ convert_feature_to_vector s2 = Ret (r2, e2)
    /\ convert_feature_to_vector (s1 ++ String ";" s2) = Ret (r1 ++ r2, e1 ++ e2).
Proof.
  eexists _, _, _, _. rewrite !convert_feature_to_vector_tokens.
  split_and!; [done..|]. by rewrite tokens_app, fmap_app, bind_app.
Qed.

Lemma element_in_range token n : element token = Some n -> Int.in_range n.
Proof.
  unfold element. destruct (decide _); [done|].
  destruct (stoi_cases token) as [(k & -> & Hk)|[-> | ->]]; [|done..].
  by intros [= <-].
Qed.

Lemma diagnostic_absent token :
  (length (diagnostic token)
   <= length (filter (fun o : option Z => o = None) [element token]))%nat.
Proof.
  rewrite filter_cons, filter_nil.
  unfold diagnostic, element. destruct (decide (token = _)).
  - cbn. lia.
  - destruct (stoi_cases token) as [(k & -> & Hk)|[-> | ->]].
    + cbn. lia.
    + by rewrite decide_True.
    + by rewrite decide_True.
Qed.

(** Property X21.  Every value [convert_feature_to_vector] returns
    is an int, there are at most as many diagnostics as rests in the
    result, and the result has at most as many elements as the text has
    characters. *)
Theorem convert_feature_to_vector_elements feature result cerr :
  convert_feature_to_vector feature = Ret (result, cerr) ->
  Forall (fun o => forall n, o = Some n -> Int.in_range n) result
  /\ (length cerr <= length (filter (fun o : option Z => o = None) result))%nat
  /\ (length result <= String.length feature)%nat.
Proof.
  rewrite convert_feature_to_vector_tokens. intros [= <- <-]. split_and!.
  - apply Forall_fmap, Forall_forall. intros token _ n. apply element_in_range.
  - induction (tokens feature) as [|token l IH]; [done|].
    cbn [mbind list_bind fmap list_fmap]. rewrite length_app.
    pose proof (diagnostic_absent token) as Hd.
    rewrite filter_cons in *. rewrite filter_nil in Hd.
    destruct (decide (element token = None)); cbn in *; lia.
  - rewrite length_fmap. unfold tokens. clear.
    assert (Hgen : (length (filter (fun t => t <> EmptyString) (fields feature))
                    + length (fields feature) <= S (String.length feature))%nat).
    { induction feature as [|c s IH].
      - cbn [fields String.length].
        rewrite filter_cons, filter_nil, decide_False by (by intros ?). cbn. lia.
      - cbn [fields String.length]. destruct (Ascii.eqb c ";").
        + rewrite filter_cons, decide_False by (by intros ?). cbn [length]. lia.
        + pose proof (fields_nonempty s). destruct (fields s) as [|f fs]; [done|].
          rewrite !filter_cons in *. rewrite decide_True by done.
          destruct (decide (f <> EmptyString)); cbn [length] in *; lia. }
    pose proof (fields_nonempty feature).
    destruct (fields feature) as [|f fs]; [done|]. cbn [length] in *. lia.
Qed.

Lemma convert_feature_to_vector_elements_witness :
  Forall (fun o => forall n, o = Some n -> Int.in_range n) [Some 7; None; None]
  /\ (length ["Invalid value in feature: x"%string]
      <= length (filter (fun o : option Z => o = None) [Some 7%Z; None; None]))%nat
  /\ (length [Some 7%Z; None; None] <= String.length "7;r;x")%nat.
Proof.
  apply (convert_feature_to_vector_elements "7;r;x").
  vm_compute. reflexivity.
Defined.

Lemma digits_app s u : forall acc,
  no_leading_digit u -> digits acc (s ++ u) = digits acc s.
Proof.
  induction s as [|c s IH]; intros acc Hu.
  - change (EmptyString ++ u)%string with u.
    destruct u as [|c u]; [done|]. cbn [digits no_leading_digit] in *. by rewrite Hu.
  - change (String c s ++ u)%string with (String c (s ++ u)). cbn [digits].
    destruct (digit c); [by apply IH | done].
Qed.

Lemma skip_spaces_app t u :
  skip_spaces t <> EmptyString -> skip_spaces (t ++ u) = (skip_spaces t ++ u)%string.
Proof.
  induction t as [|c t IH]; intros Ht; [done|].
  change (String c t ++ u)%string with (String c (t ++ u)).
  cbn [skip_spaces] in *. destruct (isspace c); [by apply IH | done].
Qed.

Lemma stoi_ignores_trailing_text t u :
  stoi t <> Throw invalid_argument ->
  no_leading_digit u ->
  stoi (t ++ u) = stoi t.
Proof.
  intros Hparsed Hu. unfold stoi in *.
  destruct (skip_spaces t) as [|c s] eqn:Hs; [done|].
  rewrite skip_spaces_app by (by rewrite Hs). rewrite Hs.
  change (String c s ++ u)%string with (String c (s ++ u)).
  destruct c as [[] [] [] [] [] [] [] []]; cbv beta iota.
  all: first [ by rewrite digits_app
             | change (String ?c s ++ u)%string with (String c (s ++ u));
               by rewrite <- (digits_app (String _ s) u) ].
Qed.

Lemma fields_no_delimiter s : has_delimiter s = false -> fields s = [s].
Proof.
  induction s as [|c s IH]; [done|].
  cbn [has_delimiter fields]. destruct (Ascii.eqb c ";"); [done|].
  cbn [orb]. intros Hs. by rewrite (IH Hs).
Qed.

Lemma has_delimiter_app t u :
  has_delimiter t = false -> has_delimiter u = false ->
  has_delimiter (t ++ u) = false.
Proof.
  induction t as [|c t IH]; intros Ht Hu; [done|].
  change (String c t ++ u)%string with (String c (t ++ u)).
  cbn [has_delimiter] in *. destruct (Ascii.eqb c ";"); [done|]. by apply IH.
Qed.

Lemma tokens_no_delimiter s :
  has_delimiter s = false -> s <> EmptyString -> tokens s = [s].
Proof.
  intros Hs Hne. unfold tokens. rewrite fields_no_delimiter by done.
  by rewrite filter_cons, filter_nil, decide_True.
Qed.

(** Property X22.  A token is read by its numeric prefix: text
    appended to a numeric token that starts with no digit and holds no
    delimiter changes neither the value nor the (empty) diagnostics, so
    [12abc] is read as 12 without a message. *)
Theorem convert_feature_to_vector_numeric_prefix t u n :
  has_delimiter t = false ->
  has_delimiter u = false ->
  no_leading_digit u ->
  convert_feature_to_vector t = Ret ([Some n], []) ->
  convert_feature_to_vector (t ++ u) = Ret ([Some n], []).
Proof.
  intros Ht Hu Hdigit. rewrite !convert_feature_to_vector_tokens.
  destruct (decide (t = EmptyString)) as [->|Hne]; [done|].
  rewrite tokens_no_delimiter by done. cbn [fmap list_fmap mbind list_bind].
  rewrite app_nil_r. intros [= Helement Hdiag].
  assert (Hstoi : stoi t = Ret n /\ t <> "r"%string).
  { unfold element in Helement. destruct (decide (t = _)); [done|].
    split; [|done]. by destruct (stoi t) as [k| |]; simplify_eq. }
  destruct Hstoi as [Hstoi Hr].
  assert (Hru : (t ++ u)%string <> "r"%string).
  { destruct t as [|c [|c' t]]; [done| |done].
    destruct u as [|d u]; [done|]. done. }
  assert (Hneu : (t ++ u)%string <> EmptyString) by (by destruct t).
  rewrite tokens_no_delimiter by (done || by apply has_delimiter_app).
  cbn [fmap list_fmap mbind list_bind]. rewrite app_nil_r.
  unfold element, diagnostic. rewrite !decide_False by done.
  rewrite stoi_ignores_trailing_text by (done || by rewrite Hstoi).
  by rewrite Hstoi.
Qed.

Lemma convert_feature_to_vector_numeric_prefix_witness :
  convert_feature_to_vector ("12" ++ "abc") = Ret ([Some 12], []).
Proof.
  apply (convert_feature_to_vector_numeric_prefix "12" "abc" 12);
    vm_compute; reflexivity.
Defined.
